(** * Protocol IR: type registry and dependency resolver

    A shallow embedding of two parts of the protocol-description tool:

    - [Resolver]: the dependency traversal of [parse-ietf-doc.py]
      ([dfs_struct], [dfs_array], [dfs_enum], [dfs_function], [dfs_context],
      [dfs_protocoltype], [dfs_protocol]);
    - [Registry]: the [Protocol] class of [protocol.py] (the type, trait and
      function maps, the expression parser and the [define_*] operations).

    Python objects are identified by a location in a store; an attribute that
    holds an object holds its location, so that sharing and reference cycles
    are expressible. *)

From stdpp Require Import gmap strings list fin_maps.
From Stdlib Require Import ZArith Lia.

Open Scope string_scope.
Open Scope list_scope.

(** Object identities (Python's [id]). *)
Abbreviation loc := nat (only parsing).

(* ===================================================================== *)
(** * The dependency resolver ([parse-ietf-doc.py])                      *)
(* ===================================================================== *)

Module Resolver.

(** A Python reference: either [None] or an object. *)
Abbreviation ref := (option loc) (only parsing).

Record StructField := { field_name : string; field_type : ref }.

(** [dfs_function] reads [parameter.param_type.name] and
    [function.return_type.name] without a [None] test, so these two
    attributes always hold an object. *)
Record FunctionParameter := { param_name : string; param_type : loc }.

Record ContextField := { cfield_name : string; cfield_type : ref }.

(** The classes [dfs_protocoltype] tells apart by [type(pt) is ...]; every
    other [ProtocolType] (bit strings, the primitive types, ...) takes none of
    the branches and is represented by [BitString]. *)
Inductive ProtocolType :=
| BitString (name : string) (size : option Z)
| Struct (name : string) (fields : list StructField)
| Array (name : string) (element_type : ref) (length : option Z)
| Enum (name : string) (variants : list ref) (parse_from serialise_to : ref)
| Function (name : string) (parameters : list FunctionParameter) (return_type : loc)
| Context (name : string) (fields : list ContextField).

Definition name (pt : ProtocolType) : string :=
  match pt with
  | BitString n _ | Struct n _ | Array n _ _ | Enum n _ _ _
  | Function n _ _ | Context n _ => n
  end.

(** What [get_pdu_names] and [get_pdu] of the protocol return, together with
    the store of the objects the protocol owns. *)
Record Protocol := {
  objects : gmap loc ProtocolType;
  get_pdu_names : list string;
  get_pdu : string -> ref
}.

(** ** Outcomes of a run *)

Inductive exn :=
| TypeError      (* a call with a missing positional argument *)
| DanglingRef.   (* a location that holds no object: not a Python behaviour,
                    excluded by [closed] below *)

Inductive outcome (A : Type) :=
| Ret (a : A)
| Raise (e : exn)
| Diverge.       (* the recursion is deeper than the fuel given *)
Arguments Ret {A} a.
Arguments Raise {A} e.
Arguments Diverge {A}.

Definition obind {A B} (m : outcome A) (k : A -> outcome B) : outcome B :=
  match m with
  | Ret a => k a
  | Raise e => Raise e
  | Diverge => Diverge
  end.

Notation "'do' x <- m ; k" := (obind m (fun x => k))
  (at level 10, x name, m at level 100, k at level 200).

(** [m1] is [m2] cut short by a lack of fuel. *)
Definition below {A} (m1 m2 : outcome A) : Prop := m1 = Diverge \/ m1 = m2.

(** [for x in xs: body(x, type_names)], the list [type_names] being mutated in
    place by the body. *)
Fixpoint for_each {A} (body : A -> list string -> outcome (list string))
    (xs : list A) (type_names : list string) : outcome (list string) :=
  match xs with
  | [] => Ret type_names
  | x :: xs' => do tn <- body x type_names ; for_each body xs' tn
  end.

(** [name not in type_names] *)
Definition not_in (n : string) (type_names : list string) : bool :=
  bool_decide (n ∉ type_names).

Section traversal.
Variable objs : gmap loc ProtocolType.

Definition name_of (l : loc) : outcome string :=
  match objs !! l with
  | Some pt => Ret (name pt)
  | None => Raise DanglingRef
  end.

Section visit.
(** The recursive call, as deep as the remaining fuel allows. *)
Variable dfs_protocoltype : ref -> list string -> outcome (list string).

Definition dfs_struct (fields : list StructField) (type_names : list string) :=
  for_each (fun field => dfs_protocoltype (field_type field)) fields type_names.

Definition dfs_array (element_type : ref) (type_names : list string) :=
  dfs_protocoltype element_type type_names.

Definition dfs_enum (enum_name : string) (variants : list ref)
    (parse_from serialise_to : ref) (type_names : list string) :=
  do tn <- for_each dfs_protocoltype variants type_names ;
  do tn <- dfs_protocoltype parse_from (tn ++ [enum_name]) ;
  dfs_protocoltype serialise_to tn.

Definition dfs_guarded (l : loc) (type_names : list string) :=
  do n <- name_of l ;
  if not_in n type_names then dfs_protocoltype (Some l) type_names
  else Ret type_names.

Definition dfs_function (parameters : list FunctionParameter) (return_type : loc)
    (type_names : list string) :=
  do tn <- for_each (fun parameter => dfs_guarded (param_type parameter))
          parameters type_names ;
  dfs_guarded return_type tn.

(** [dfs_protocoltype(field.field_type)]: the call leaves out
    [type_names], which raises [TypeError] at the first field. *)
Definition dfs_context (fields : list ContextField) (type_names : list string) :=
  for_each (fun field (_ : list string) => Raise TypeError) fields type_names.
End visit.

Fixpoint dfs_protocoltype (fuel : nat) (pt : ref) (type_names : list string)
    : outcome (list string) :=
  match fuel with
  | 0 => Diverge
  | S fuel' =>
    match pt with
    | None => Ret type_names
    | Some l =>
      match objs !! l with
      | None => Raise DanglingRef
      | Some obj =>
        do tn <- match obj with
              | Struct _ fields =>
                  dfs_struct (dfs_protocoltype fuel') fields type_names
              | Array _ element_type _ =>
                  dfs_array (dfs_protocoltype fuel') element_type type_names
              | Enum n variants parse_from serialise_to =>
                  dfs_enum (dfs_protocoltype fuel') n variants parse_from
                    serialise_to type_names
              | Function _ parameters return_type =>
                  dfs_function (dfs_protocoltype fuel') parameters return_type
                    type_names
              | Context _ fields =>
                  dfs_context fields type_names
              | BitString _ _ => Ret type_names
              end ;
        Ret (tn ++ [name obj])
      end
    end
  end.
End traversal.

(** The second loop of [dfs_protocol]: keep the first occurrence of each name. *)
Fixpoint dedupe (type_names type_names_dedupe : list string) : list string :=
match type_names with
| [] => type_names_dedupe
| type_name :: rest =>
    if not_in type_name type_names_dedupe
    then dedupe rest (type_names_dedupe ++ [type_name])
    else dedupe rest type_names_dedupe
end.

Definition dfs_protocol (fuel : nat) (protocol : Protocol) : outcome (list string) :=
do type_names <-
  for_each (fun pdu_name =>
              dfs_protocoltype (objects protocol) fuel (get_pdu protocol pdu_name))
           (get_pdu_names protocol) [] ;
Ret (dedupe type_names []).

(** ** The reference graph *)

(** Every reference an object holds, in the order the traversal reads them. *)
Definition refs (pt : ProtocolType) : list ref :=
match pt with
| BitString _ _ => []
| Struct _ fields => field_type <$> fields
| Array _ element_type _ => [element_type]
| Enum _ variants parse_from serialise_to => variants ++ [parse_from; serialise_to]
| Function _ parameters return_type =>
    ((fun p => Some (param_type p)) <$> parameters) ++ [Some return_type]
| Context _ fields => cfield_type <$> fields
end.

(** The references the traversal follows unconditionally: all but those of a
  function, which [dfs_function] follows only when the name of the target is
  not yet in [type_names]. *)
Definition hard_refs (pt : ProtocolType) : list ref :=
match pt with
| Function _ _ _ | Context _ _ => []
| _ => refs pt
end.

Definition edge (objs : gmap loc ProtocolType) (l l' : loc) : Prop :=
exists pt, objs !! l = Some pt /\ Some l' ∈ refs pt.

Definition hard_edge (objs : gmap loc ProtocolType) (l l' : loc) : Prop :=
exists pt, objs !! l = Some pt /\ Some l' ∈ hard_refs pt.

(** The root objects: [get_pdu(pdu_name)] for each PDU name. *)
Definition roots (protocol : Protocol) : list ref :=
get_pdu protocol <$> get_pdu_names protocol.

(** Every reference denotes an object. *)
Definition closed (protocol : Protocol) : Prop :=
(forall l, Some l ∈ roots protocol -> is_Some (objects protocol !! l)) /\
(forall l l', edge (objects protocol) l l' -> is_Some (objects protocol !! l')).

(** No object reachable from a root lies on a reference cycle. *)
Definition acyclic (protocol : Protocol) : Prop :=
forall l l', Some l ∈ roots protocol ->
  rtc (edge (objects protocol)) l l' -> ~ tc (edge (objects protocol)) l' l'.

(** A root reaches, through unconditional references, a cycle of
  unconditional references. *)
Definition hard_cycle (protocol : Protocol) : Prop :=
exists l l', Some l ∈ roots protocol /\
  rtc (hard_edge (objects protocol)) l l' /\
  tc (hard_edge (objects protocol)) l' l'.

Definition no_context_fields (objs : gmap loc ProtocolType) : Prop :=
forall l n fields, objs !! l = Some (Context n fields) -> fields = [].

Definition unique_names (objs : gmap loc ProtocolType) : Prop :=
forall l1 l2 o1 o2, objs !! l1 = Some o1 -> objs !! l2 = Some o2 ->
  name o1 = name o2 -> l1 = l2.

(** A decidable certificate of [closed] and [acyclic]: a rank that decreases
  along every reference. *)
Definition ranked_ref (objs : gmap loc ProtocolType) (rk : loc -> nat)
  (l : loc) (r : ref) : bool :=
match r with
| None => true
| Some l' => bool_decide (is_Some (objs !! l')) && bool_decide (rk l' < rk l)
end.

Definition ranked (objs : gmap loc ProtocolType) (rk : loc -> nat) : bool :=
forallb (fun lp => forallb (ranked_ref objs rk lp.1) (refs lp.2)) (map_to_list objs).

Definition bound_ref (objs : gmap loc ProtocolType) (r : ref) : bool :=
match r with
| None => true
| Some l' => bool_decide (is_Some (objs !! l'))
end.

Definition bound_refs (objs : gmap loc ProtocolType) : bool :=
forallb (fun lp => forallb (bound_ref objs) (refs lp.2)) (map_to_list objs).

Definition context_free (objs : gmap loc ProtocolType) : bool :=
forallb (fun lp => match lp.2 with Context _ (_ :: _) => false | _ => true end)
        (map_to_list objs).

Definition distinct_names (objs : gmap loc ProtocolType) : bool :=
bool_decide (NoDup ((fun lp => name lp.2) <$> map_to_list objs)).

(** Every occurrence of [y] in [tn] comes after an occurrence of [x]. *)
Definition preceded (x y : string) (tn : list string) : Prop :=
forall i, tn !! i = Some y -> x ∈ take i tn.

(** A step of the traversal from [tn] to [tn']: names are only appended, and
  [preceded] is kept. *)
Definition extends (x y : string) (tn tn' : list string) : Prop :=
tn `prefix_of` tn' /\ (preceded x y tn -> preceded x y tn').

(** Every object named [y] is a struct one of whose fields has a type named [x]. *)
Definition depends_on (objs : gmap loc ProtocolType) (x y : string) : Prop :=
forall l obj, objs !! l = Some obj -> name obj = y ->
  exists fields l' obj', obj = Struct y fields /\
    Some l' ∈ field_type <$> fields /\ objs !! l' = Some obj' /\ name obj' = x.

(** A computation indexed by the depth of recursion it may use. *)
Definition mono (c : nat -> list string -> outcome (list string)) : Prop :=
forall f f' tn, f <= f' -> below (c f tn) (c f' tn).

Definition terminates (c : nat -> list string -> outcome (list string)) : Prop :=
forall tn, exists f tn', c f tn = Ret tn'.


(** ** Sample protocols *)

Definition fld (n : string) (l : loc) : StructField :=
{| field_name := n; field_type := Some l |}.

Definition single_pdu (objs : gmap loc ProtocolType) (l : loc) : Protocol :=
{| objects := objs; get_pdu_names := ["pdu"]; get_pdu := fun _ => Some l |}.

(** [A -> B -> C] *)
Definition chain_objs : gmap loc ProtocolType :=
<[0 := Struct "A" [fld "b" 1]]>
(<[1 := Struct "B" [fld "c" 2]]>
(<[2 := BitString "C" (Some 8%Z)]> ∅)).

(** An enum whose conversion function takes and returns the enum. *)
Definition enum_objs : gmap loc ProtocolType :=
<[0 := Enum "E" [Some 2] (Some 1) None]>
(<[1 := Function "f" [{| param_name := "x"; param_type := 0 |}] 0]>
(<[2 := BitString "V" (Some 8%Z)]> ∅)).

(** A struct with a field of its own type. *)
Definition loop_objs : gmap loc ProtocolType :=
<[0 := Struct "L" [fld "next" 0]]> ∅.

Definition ctx_objs : gmap loc ProtocolType :=
<[0 := Context "Ctx" [{| cfield_name := "x"; cfield_type := Some 1 |}]]>
(<[1 := BitString "Bits" (Some 8%Z)]> ∅).

(** ** Reachability and order in the output *)

(** The objects a PDU root reaches through references. *)
Definition reachable (protocol : Protocol) (l' : loc) : Prop :=
  exists l, Some l ∈ roots protocol /\ rtc (edge (objects protocol)) l l'.

(** [x] occurs before [y] in [out]. *)
Definition before (x y : string) (out : list string) : Prop :=
  exists l1 l2 l3, out = l1 ++ x :: l2 ++ y :: l3.

(** The references the traversal follows before it appends the name of the
    object for the first time: the fields of a struct, the element type of an
    array, the variants of an enum. *)
Definition early_refs (pt : ProtocolType) : list ref :=
  match pt with
  | Struct _ fields => field_type <$> fields
  | Array _ element_type _ => [element_type]
  | Enum _ variants _ _ => variants
  | _ => []
  end.

(** The reference [r], unless it is [None], denotes an object whose name is in
    [tn]. *)
Definition named_in (objs : gmap loc ProtocolType) (r : ref) (tn : list string) : Prop :=
  forall l, r = Some l -> exists obj, objs !! l = Some obj /\ name obj ∈ tn.

(** Every name of [tn'] that is not in [tn] is the name of an object that
    satisfies [P]. *)
Definition appended (objs : gmap loc ProtocolType) (P : loc -> Prop)
    (tn tn' : list string) : Prop :=
  tn `prefix_of` tn' /\
  forall n, n ∈ tn' -> n ∈ tn \/ exists l obj, P l /\ objs !! l = Some obj /\ name obj = n.

(** Every object whose name is in [tn'] and not in [tn] holds only references
    to objects whose name is in [tn']. *)
Definition settled (objs : gmap loc ProtocolType) (tn tn' : list string) : Prop :=
  tn `prefix_of` tn' /\
  forall l obj, objs !! l = Some obj -> name obj ∈ tn' -> name obj ∈ tn \/
    forall l', Some l' ∈ refs obj ->
      exists obj', objs !! l' = Some obj' /\ name obj' ∈ tn'.

(** A struct with one field for each of the given types. *)
Definition struct_of (n : string) (types : list loc) : ProtocolType :=
  Struct n ((fun l => fld "f" l) <$> types).

(** A diamond: [Top] has fields of types [Left] and [Right], both have a
    field of type [Leaf]. *)
Definition diamond_objs : gmap loc ProtocolType :=
  <[0 := struct_of "Top" [1; 2]]>
  (<[1 := struct_of "Left" [3]]>
  (<[2 := struct_of "Right" [3]]>
  (<[3 := BitString "Leaf" (Some 8%Z)]> ∅))).

(** Every object named [y] holds, among the references followed before its
    name is appended, one to an object named [x]. *)
Definition depends_early (objs : gmap loc ProtocolType) (x y : string) : Prop :=
  forall l obj, objs !! l = Some obj -> name obj = y ->
    exists l' obj', Some l' ∈ early_refs obj /\ objs !! l' = Some obj' /\ name obj' = x.

(** The objects from which unconditional references lead to a context that
    has fields. *)
Definition reaches_context_fields (objs : gmap loc ProtocolType) (l : loc) : Prop :=
  exists l' n field fields,
    rtc (hard_edge objs) l l' /\ objs !! l' = Some (Context n (field :: fields)).

(** A struct with a field whose type is a context with a field. *)
Definition nested_ctx_objs : gmap loc ProtocolType :=
  <[0 := struct_of "Outer" [1]]>
  (<[1 := Context "Ctx" [{| cfield_name := "x"; cfield_type := Some 2 |}]]>
  (<[2 := BitString "Bits" (Some 8%Z)]> ∅)).

End Resolver.

(* ===================================================================== *)
(** * The type registry ([protocol.py])                                   *)
(* ===================================================================== *)

Module Registry.

(** ** Input records *)

(** The payload of a literal; it is stored and never inspected. *)
Inductive json_value :=
| JString (s : string)
| JNumber (n : Z).

(** Expression records, keyed by ["expression"].  [OtherExpression] stands
    for a record whose discriminator is none of the seven known ones. *)
#[warnings="-register-all"] Inductive expr_record :=
| MethodInvocation (target : expr_record) (method : string)
    (arguments : list (string * expr_record))
| FunctionInvocation (name : string) (arguments : list (string * expr_record))
| FieldAccess (target : expr_record) (field : string)
| ContextAccess (field : string)
| IfElse (condition if_true if_false : expr_record)
| This
| Constant (type : string) (value : json_value)
| OtherExpression (expression : string).

Record transform_record := {
  tr_into_name : string; tr_into_type : string; tr_using : string
}.

Record field_record := {
  fr_name : string; fr_type : string; fr_is_present : expr_record;
  fr_transform : option transform_record
}.

(** Type-constructor records, keyed by ["construct"]. *)
Inductive irobj :=
| IRBitString (name : string) (size : Z)
| IRArray (name : string) (element_type : string) (length : Z)
| IRStruct (name : string) (fields : list field_record)
    (constraints actions : list expr_record)
| IREnum (name : string) (variants : list string)
| IRNewType (name : string) (derived_from : string) (implements : list string)
| IRFunction (name : string) (parameters : list (string * string))
    (return_type : string)
| IRContext (name : string).

Definition construct (o : irobj) : string :=
  match o with
  | IRBitString _ _ => "BitString"
  | IRArray _ _ _ => "Array"
  | IRStruct _ _ _ _ => "Struct"
  | IREnum _ _ => "Enum"
  | IRNewType _ _ _ => "NewType"
  | IRFunction _ _ _ => "Function"
  | IRContext _ => "Context"
  end.

Definition ir_name (o : irobj) : string :=
  match o with
  | IRBitString n _ | IRArray n _ _ | IRStruct n _ _ _ | IREnum n _
  | IRNewType n _ _ | IRFunction n _ _ | IRContext n => n
  end.

(** ** The objects of [protocoltypes] *)

(** [Parameter(name, type)]; the type is [None] in the signatures of the
    built-in traits. *)
Record FunctionParameter := { param_name : string; param_type : option loc }.

Record Function := {
  func_name : string;
  func_parameters : list FunctionParameter;
  func_return_type : option loc
}.

Record Trait := { trait_name : string; trait_methods : list Function }.

#[global] Instance FunctionParameter_eq_dec : EqDecision FunctionParameter.
Proof. solve_decision. Defined.
#[global] Instance Function_eq_dec : EqDecision Function.
Proof. solve_decision. Defined.
#[global] Instance Trait_eq_dec : EqDecision Trait.
Proof. solve_decision. Defined.

Record Argument := {
  arg_name : string; arg_type : option loc; arg_value : option json_value
}.

Inductive Expression :=
| MethodInvocationExpression (target : Expression) (method : string)
    (args : list Argument)
| FunctionInvocationExpression (func : Function) (args : list Argument)
| FieldAccessExpression (target : Expression) (field : string)
| ContextAccessExpression (field : string)
| IfElseExpression (condition if_true if_false : Expression)
| ThisExpression (this : loc)
| ConstantExpression (type_ : loc) (value : json_value).

Record Transform := {
  tf_into_name : string; tf_into_type : loc; tf_using : Function
}.

Record Field := {
  field_name : string; field_type : loc; field_is_present : Expression;
  field_transform : option Transform
}.

(** The attributes that depend on the kind of a type. *)
Inductive Shape :=
| PrimitiveShape
| BitStringShape (size : Z)
| ArrayShape (element_type : loc) (length : Z) (size : option Z)
| StructShape (fields : list Field) (constraints actions : list Expression)
| EnumShape (variants : list loc).

(** An instance of [Type].  [traits] and [methods] hold the identities of two
    dicts, so that two instances may share a dict. *)
Record TypeObject := {
  kind : string;
  name : string;
  traits : loc;
  methods : loc;
  shape : Shape
}.

(** [self.size] where the class defines it. *)
Definition size_of (o : TypeObject) : option Z :=
  match shape o with
  | BitStringShape size => Some size
  | ArrayShape _ _ size => size
  | _ => None
  end.

(** ** The protocol and its store *)

Record Protocol := {
  _types : gmap string loc;
  _traits : gmap string Trait;
  _funcs : gmap string Function;
  heap : gmap loc TypeObject;                       (* the [Type] instances *)
  trait_dicts : gmap loc (gmap string Trait);       (* the [traits] dicts *)
  method_dicts : gmap loc (gmap string Function);   (* the [methods] dicts *)
  next : loc                                        (* the next fresh identity *)
}.

Inductive error :=
| UnsupportedConstruct   (* wrong ["construct"], or an unimplemented operation *)
| DuplicateDefinition    (* "already exists" *)
| MalformedName          (* "malformed name" *)
| UnknownReference       (* [KeyError] of a map lookup *)
| TypeMismatch           (* constraint not Boolean, action not Nothing *)
| ScopeError             (* expression outside a structure type *)
| UnsupportedExpression  (* "Cannot parse expression" *)
| DanglingRef.           (* an identity without object: not a Python behaviour,
                            excluded by [wf] *)

Inductive result (A : Type) :=
| Ok (a : A)
| Err (e : error).
Arguments Ok {A} a.
Arguments Err {A} e.

Definition rbind {A B} (m : result A) (k : A -> result B) : result B :=
  match m with
  | Ok a => k a
  | Err e => Err e
  end.

Notation "'try' x <- m ; k" := (rbind m (fun x => k))
  (at level 10, x name, m at level 100, k at level 200).

(** Code that reads the protocol and may raise. *)
Definition R (A : Type) : Type := Protocol -> result A.

(** Code that mutates the protocol and may raise; the mutations made before
    the exception stay. *)
Definition M (A : Type) : Type := Protocol -> result A * Protocol.

Definition ret {A} (a : A) : M A := fun p => (Ok a, p).
Definition raise {A} (e : error) : M A := fun p => (Err e, p).
Definition lift {A} (r : R A) : M A := fun p => (r p, p).
Definition modify (f : Protocol -> Protocol) : M unit := fun p => (Ok tt, f p).

Definition bind {A B} (m : M A) (k : A -> M B) : M B :=
  fun p => match m p with
           | (Ok a, p') => k a p'
           | (Err e, p') => (Err e, p')
           end.

Notation "'do' x <- m ; k" := (bind m (fun x => k))
  (at level 10, x name, m at level 100, k at level 200).
Notation "m ;; k" := (bind m (fun _ => k))
  (at level 100, k at level 200, right associativity).

(** [for x in xs: body(x)] *)
Fixpoint for_each {A} (body : A -> M unit) (xs : list A) : M unit :=
  match xs with
  | [] => ret tt
  | x :: xs' => body x ;; for_each body xs'
  end.

(** [res = []; for x in xs: res.append(f(x)); return res] *)
Definition collect {A B} (f : A -> result B) : list A -> result (list B) :=
  fix go (xs : list A) : result (list B) :=
    match xs with
    | [] => Ok []
    | x :: xs' => try y <- f x ; try ys <- go xs' ; Ok (y :: ys)
    end.

Definition lookup_or {K A} `{Countable K} (e : error) (m : gmap K A) (k : K)
    : result A :=
  match m !! k with
  | Some a => Ok a
  | None => Err e
  end.

(** ** Store operations *)

Definition deref (l : loc) : R TypeObject := fun p => lookup_or DanglingRef (heap p) l.

Definition update_obj (l : loc) (f : TypeObject -> TypeObject) (p : Protocol) : Protocol :=
  {| _types := _types p; _traits := _traits p; _funcs := _funcs p;
     heap := alter f l (heap p);
     trait_dicts := trait_dicts p; method_dicts := method_dicts p;
     next := next p |}.

(** The store after the allocation of a new instance with two dicts of its
    own, which is what [Type.__init__] sets up. *)
Definition allocated (kind name : string) (shape : Shape) (p : Protocol) : Protocol :=
  {| _types := _types p; _traits := _traits p; _funcs := _funcs p;
     heap := <[next p := {| kind := kind; name := name; traits := next p;
                            methods := next p; shape := shape |}]> (heap p);
     trait_dicts := <[next p := ∅]> (trait_dicts p);
     method_dicts := <[next p := ∅]> (method_dicts p);
     next := S (next p) |}.

Definition new_object (kind name : string) (shape : Shape) : M loc :=
  fun p => (Ok (next p), allocated kind name shape p).

Definition with_type (n : string) (l : loc) (p : Protocol) : Protocol :=
  {| _types := <[n := l]> (_types p); _traits := _traits p; _funcs := _funcs p;
     heap := heap p; trait_dicts := trait_dicts p;
     method_dicts := method_dicts p; next := next p |}.

Definition with_func (n : string) (f : Function) (p : Protocol) : Protocol :=
  {| _types := _types p; _traits := _traits p; _funcs := <[n := f]> (_funcs p);
     heap := heap p; trait_dicts := trait_dicts p;
     method_dicts := method_dicts p; next := next p |}.

Definition with_trait (n : string) (t : Trait) (p : Protocol) : Protocol :=
  {| _types := _types p; _traits := <[n := t]> (_traits p); _funcs := _funcs p;
     heap := heap p; trait_dicts := trait_dicts p;
     method_dicts := method_dicts p; next := next p |}.

(** [self._types[name] = obj] *)
Definition set_type (n : string) (l : loc) : M unit := modify (with_type n l).

(** [self._funcs[name] = f] *)
Definition set_func (n : string) (f : Function) : M unit := modify (with_func n f).

(** [self._traits[name] = t] *)
Definition set_trait (n : string) (t : Trait) : M unit := modify (with_trait n t).

(** ** Lookup *)

Definition type (type_name : string) : R loc :=
  fun p => lookup_or UnknownReference (_types p) type_name.

Definition func (func_name : string) : R Function :=
  fun p => lookup_or UnknownReference (_funcs p) func_name.

Definition trait (trait_name : string) : R Trait :=
  fun p => lookup_or UnknownReference (_traits p) trait_name.

(** ** Methods of the type objects *)

Definition add_methods (ms : list Function) (d : gmap string Function)
    : gmap string Function :=
  fold_left (fun d m => <[func_name m := m]> d) ms d.

(** Modelled from the spec: [Type.implement_trait] of [protocoltypes] is not
    among the sources.  Implementing a trait adds it to the set of implemented
    traits of the type and exposes its method signatures through the type;
    both collections only grow. *)
Definition implemented (o : TypeObject) (t : Trait) (p : Protocol) : Protocol :=
  {| _types := _types p; _traits := _traits p; _funcs := _funcs p;
     heap := heap p;
     trait_dicts := alter (fun d => <[trait_name t := t]> d) (traits o) (trait_dicts p);
     method_dicts := alter (add_methods (trait_methods t)) (methods o) (method_dicts p);
     next := next p |}.

Definition implement_trait (l : loc) (t : Trait) : M unit := fun p =>
  match heap p !! l with
  | None => (Err DanglingRef, p)
  | Some o => (Ok tt, implemented o t p)
  end.

Definition append_field (f : Field) (sh : Shape) : Shape :=
  match sh with
  | StructShape fields constraints actions =>
      StructShape (fields ++ [f]) constraints actions
  | _ => sh
  end.

Definition append_constraint (e : Expression) (sh : Shape) : Shape :=
  match sh with
  | StructShape fields constraints actions =>
      StructShape fields (constraints ++ [e]) actions
  | _ => sh
  end.

Definition append_action (e : Expression) (sh : Shape) : Shape :=
  match sh with
  | StructShape fields constraints actions =>
      StructShape fields constraints (actions ++ [e])
  | _ => sh
  end.

Definition with_shape (f : Shape -> Shape) (o : TypeObject) : TypeObject :=
  {| kind := kind o; name := name o; traits := traits o; methods := methods o;
     shape := f (shape o) |}.

(** Modelled from the spec: [Struct.add_field], [add_constraint] and
    [add_action] of [protocoltypes] are not among the sources.  A struct keeps
    its fields, constraints and actions in the order they are added. *)
Definition add_field (l : loc) (f : Field) : M unit :=
  modify (update_obj l (with_shape (append_field f))).

Definition add_constraint (l : loc) (e : Expression) : M unit :=
  modify (update_obj l (with_shape (append_constraint e))).

Definition add_action (l : loc) (e : Expression) : M unit :=
  modify (update_obj l (with_shape (append_action e))).

(** Modelled from the spec: the constructors [Nothing()], [Boolean()],
    [Size()], [BitString(name, size)], [Array(name, element_type, length)],
    [Struct(name)] and [Enum(name, variants)] of [protocoltypes] are not among
    the sources.  Each builds a type of its kind with empty trait and method
    collections; the size of an array, if the element is sized, is the size of
    the element times the length. *)
Definition Nothing : M loc := new_object "Nothing" "Nothing" PrimitiveShape.
Definition Boolean : M loc := new_object "Boolean" "Boolean" PrimitiveShape.
Definition Size : M loc := new_object "Size" "Size" PrimitiveShape.

Definition BitString (n : string) (size : Z) : M loc :=
  new_object "BitString" n (BitStringShape size).

Definition array_size (element_size : option Z) (length : Z) : option Z :=
  match element_size with
  | Some s => Some (s * length)%Z
  | None => None
  end.

Definition Array (n : string) (element_type : loc) (length : Z) : M loc :=
  do e <- lift (deref element_type) ;
  new_object "Array" n (ArrayShape element_type length (array_size (size_of e) length)).

Definition Struct (n : string) : M loc :=
  new_object "Struct" n (StructShape [] [] []).

Definition Enum (n : string) (variants : list loc) : M loc :=
  new_object "Enum" n (EnumShape variants).

(** [copy(orig_type)] followed by the three assignments of [derive_type]:
    a new instance with the attributes of [orig], then its own name, then
    [copy(orig_type.traits)] and [copy(orig_type.methods)], two new dicts with
    the entries of the original ones. *)
Definition copied (o : TypeObject) (n : string) (td : gmap string Trait)
    (md : gmap string Function) (p : Protocol) : Protocol :=
  {| _types := _types p; _traits := _traits p; _funcs := _funcs p;
     heap := <[next p := {| kind := kind o; name := n; traits := next p;
                            methods := next p; shape := shape o |}]> (heap p);
     trait_dicts := <[next p := td]> (trait_dicts p);
     method_dicts := <[next p := md]> (method_dicts p);
     next := S (next p) |}.

Definition copy_type (orig : loc) (n : string) : M loc := fun p =>
  match heap p !! orig with
  | None => (Err DanglingRef, p)
  | Some o =>
    match trait_dicts p !! traits o, method_dicts p !! methods o with
    | Some td, Some md => (Ok (next p), copied o n td md p)
    | _, _ => (Err DanglingRef, p)
    end
  end.

(** Modelled from the spec: [Expression.type()] of [protocoltypes] is not
    among the sources.  The static type of an expression: the return type of
    the method the target's type exposes; the return type of the function; the
    declared type of the field of the target structure; for a conditional
    whose condition is Boolean, the common type of the branches (a type
    mismatch otherwise); the enclosing structure for [This]; the declared type
    of a constant.  Context access is unimplemented. *)
Fixpoint type_of (e : Expression) (p : Protocol) : result (option loc) :=
  match e with
  | MethodInvocationExpression target method _ =>
      try t <- type_of target p ;
      match t with
      | None => Err TypeMismatch
      | Some l =>
          try o <- deref l p ;
          try d <- lookup_or DanglingRef (method_dicts p) (methods o) ;
          try m <- lookup_or UnknownReference d method ;
          Ok (func_return_type m)
      end
  | FunctionInvocationExpression f _ => Ok (func_return_type f)
  | FieldAccessExpression target field =>
      try t <- type_of target p ;
      match t with
      | None => Err TypeMismatch
      | Some l =>
          try o <- deref l p ;
          match shape o with
          | StructShape fields _ _ =>
              match find (fun f => String.eqb (field_name f) field) fields with
              | Some f => Ok (Some (field_type f))
              | None => Err UnknownReference
              end
          | _ => Err TypeMismatch
          end
      end
  | ContextAccessExpression _ => Err UnsupportedConstruct
  | IfElseExpression condition if_true if_false =>
      try c <- type_of condition p ;
      try b <- type "Boolean" p ;
      if bool_decide (c = Some b) then
        try t <- type_of if_true p ;
        try f <- type_of if_false p ;
        if bool_decide (t = f) then Ok t else Err TypeMismatch
      else Err TypeMismatch
  | ThisExpression this => Ok (Some this)
  | ConstantExpression type_ _ => Ok (Some type_)
  end.

(** ** [Protocol.__init__] *)

Definition empty_protocol : Protocol :=
  {| _types := ∅; _traits := ∅; _funcs := ∅; heap := ∅; trait_dicts := ∅;
     method_dicts := ∅; next := 0 |}.

Definition mkparam (n : string) (t : option loc) : FunctionParameter :=
  {| param_name := n; param_type := t |}.

Definition mkfunc (n : string) (ps : list FunctionParameter) (r : option loc)
    : Function :=
  {| func_name := n; func_parameters := ps; func_return_type := r |}.

Definition mktrait (n : string) (ms : list Function) : Trait :=
  {| trait_name := n; trait_methods := ms |}.

(** [self._types[name].implement_trait(self.trait(trait_name))] *)
Definition implement (n trait_name : string) : M unit :=
  do l <- lift (type n) ;
  do t <- lift (trait trait_name) ;
  implement_trait l t.

Definition __init__ : M unit :=
  (do t <- Nothing ; set_type "Nothing" t) ;;
  (do t <- Boolean ; set_type "Boolean" t) ;;
  (do t <- Size ; set_type "Size" t) ;;
  set_trait "Value" (mktrait "Value" [
    mkfunc "get" [mkparam "self" None] None;
    mkfunc "set" [mkparam "self" None; mkparam "value" None] None]) ;;
  (do size <- lift (type "Size") ;
   set_trait "Sized" (mktrait "Sized" [
     mkfunc "size" [mkparam "self" None] (Some size)])) ;;
  (do size <- lift (type "Size") ;
   set_trait "IndexCollection" (mktrait "IndexCollection" [
     mkfunc "get" [mkparam "self" None; mkparam "index" (Some size)] None;
     mkfunc "set" [mkparam "self" None; mkparam "index" (Some size);
                   mkparam "value" None] None;
     mkfunc "length" [mkparam "self" None] (Some size)])) ;;
  (do boolean <- lift (type "Boolean") ;
   set_trait "Equality" (mktrait "Equality" [
     mkfunc "eq" [mkparam "self" None; mkparam "other" None] (Some boolean);
     mkfunc "ne" [mkparam "self" None; mkparam "other" None] (Some boolean)])) ;;
  (do boolean <- lift (type "Boolean") ;
   set_trait "Ordinal" (mktrait "Ordinal" [
     mkfunc "lt" [mkparam "self" None; mkparam "other" None] (Some boolean);
     mkfunc "le" [mkparam "self" None; mkparam "other" None] (Some boolean);
     mkfunc "gt" [mkparam "self" None; mkparam "other" None] (Some boolean);
     mkfunc "ge" [mkparam "self" None; mkparam "other" None] (Some boolean)])) ;;
  (do boolean <- lift (type "Boolean") ;
   set_trait "BooleanOps" (mktrait "BooleanOps" [
     mkfunc "and" [mkparam "self" None; mkparam "other" None] (Some boolean);
     mkfunc "or" [mkparam "self" None; mkparam "other" None] (Some boolean);
     mkfunc "not" [mkparam "self" None] (Some boolean)])) ;;
  set_trait "ArithmeticOps" (mktrait "ArithmeticOps" [
    mkfunc "plus" [mkparam "self" None; mkparam "other" None] None;
    mkfunc "minus" [mkparam "self" None; mkparam "other" None] None;
    mkfunc "multiply" [mkparam "self" None] None;
    mkfunc "divide" [mkparam "self" None] None;
    mkfunc "modulo" [mkparam "self" None] None]) ;;
  implement "Boolean" "Value" ;;
  implement "Boolean" "Equality" ;;
  implement "Boolean" "BooleanOps" ;;
  implement "Size" "Value" ;;
  implement "Size" "Equality" ;;
  implement "Size" "Ordinal" ;;
  implement "Size" "ArithmeticOps".

(** [Protocol()] *)
Definition init : Protocol := (__init__ empty_protocol).2.

(** ** The private helpers and the public operations *)

Section protocol.
(** [re.search(TYPE_NAME_REGEX, s) != None] and
    [re.search(FUNC_NAME_REGEX, s) != None]: the two patterns are constants of
    [protocoltypes], which is not among the sources. *)
Variables TYPE_NAME_REGEX FUNC_NAME_REGEX : string -> bool.

Definition _validate_irtype (irobj : irobj) (kind : string) : R unit := fun p =>
  if negb (String.eqb (construct irobj) kind) then Err UnsupportedConstruct
  else if bool_decide (is_Some (_types p !! ir_name irobj)) then Err DuplicateDefinition
  else if negb (TYPE_NAME_REGEX (ir_name irobj)) then Err MalformedName
  else Ok tt.

Definition _parse_arguments (_parse_expression : expr_record -> loc -> R Expression)
    (args : list (string * expr_record)) (this : loc) : R (list Argument) := fun p =>
  collect (fun arg =>
             try expr_ <- _parse_expression arg.2 this p ;
             try type_ <- type_of expr_ p ;
             Ok {| arg_name := arg.1; arg_type := type_; arg_value := None |})
          args.

Fixpoint _parse_expression (expr : expr_record) (this : loc) (p : Protocol)
    {struct expr} : result Expression :=
  try this_ <- deref this p ;
  if negb (String.eqb (kind this_) "Struct") then Err ScopeError
  else
    match expr with
    | MethodInvocation target method arguments =>
        try target <- _parse_expression target this p ;
        try args <- _parse_arguments _parse_expression arguments this p ;
        Ok (MethodInvocationExpression target method args)
    | FunctionInvocation n arguments =>
        try f <- func n p ;
        try args <- _parse_arguments _parse_expression arguments this p ;
        Ok (FunctionInvocationExpression f args)
    | FieldAccess target field =>
        try target <- _parse_expression target this p ;
        Ok (FieldAccessExpression target field)
    | ContextAccess field => Ok (ContextAccessExpression field)
    | IfElse condition if_true if_false =>
        try condition <- _parse_expression condition this p ;
        try if_true <- _parse_expression if_true this p ;
        try if_false <- _parse_expression if_false this p ;
        Ok (IfElseExpression condition if_true if_false)
    | This => Ok (ThisExpression this)
    | Constant t value =>
        try type_ <- type t p ;
        Ok (ConstantExpression type_ value)
    | OtherExpression _ => Err UnsupportedExpression
    end.

Definition _parse_transform (transform : option transform_record)
    : R (option Transform) := fun p =>
  match transform with
  | Some t =>
      try into_type <- type (tr_into_type t) p ;
      try using_ <- func (tr_using t) p ;
      Ok (Some {| tf_into_name := tr_into_name t; tf_into_type := into_type;
                  tf_using := using_ |})
  | None => Ok None
  end.

Definition _parse_fields (fields : list field_record) (this : loc)
    : R (list Field) := fun p =>
  collect (fun field =>
             if negb (FUNC_NAME_REGEX (fr_name field)) then Err MalformedName
             else
               try _type <- type (fr_type field) p ;
               try _is_present <- _parse_expression (fr_is_present field) this p ;
               try _transform <- _parse_transform (fr_transform field) p ;
               Ok {| field_name := fr_name field; field_type := _type;
                     field_is_present := _is_present;
                     field_transform := _transform |})
          fields.

Definition _parse_constraints (constraints : list expr_record) (this : loc)
    : R (list Expression) := fun p =>
  collect (fun constraint =>
             try expr <- _parse_expression constraint this p ;
             try t <- type_of expr p ;
             try boolean <- type "Boolean" p ;
             if bool_decide (t <> Some boolean) then Err TypeMismatch
             else Ok expr)
          constraints.

Definition _parse_actions (actions : list expr_record) (this : loc)
    : R (list Expression) := fun p =>
  collect (fun action =>
             try expr <- _parse_expression action this p ;
             try t <- type_of expr p ;
             try nothing <- type "Nothing" p ;
             if bool_decide (t <> Some nothing) then Err TypeMismatch
             else Ok expr)
          actions.

Definition _parse_variants (variants : list string) : R (list loc) := fun p =>
  collect (fun v => type v p) variants.

Definition _parse_parameters (parameters : list (string * string))
    : R (list FunctionParameter) := fun p =>
  collect (fun q => try t <- type q.2 p ;
                    Ok {| param_name := q.1; param_type := Some t |})
          parameters.

Definition define_bitstring (irobj : irobj) : M unit :=
  lift (_validate_irtype irobj "BitString") ;;
  match irobj with
  | IRBitString n size =>
      (do t <- BitString n size ; set_type n t) ;;
      implement n "Sized" ;;
      implement n "Value" ;;
      implement n "Equality"
  | _ => raise UnsupportedConstruct
  end.

Definition define_array (irobj : irobj) : M unit :=
  lift (_validate_irtype irobj "Array") ;;
  match irobj with
  | IRArray n element_type length =>
      do element_type <- lift (type element_type) ;
      (do t <- Array n element_type length ; set_type n t) ;;
      implement n "Sized" ;;
      implement n "Equality" ;;
      implement n "IndexCollection"
  | _ => raise UnsupportedConstruct
  end.

(** The four blocks of [define_struct]: the registration of the new, empty
    struct, then its fields, its constraints and its actions. *)
Definition struct_new (n : string) : M unit :=
  do t <- Struct n ; set_type n t.

Definition struct_fields (n : string) (fields : list field_record) : M unit :=
  do this <- lift (type n) ;
  do fs <- lift (_parse_fields fields this) ;
  for_each (fun field => do t <- lift (type n) ; add_field t field) fs.

Definition struct_constraints (n : string) (constraints : list expr_record) : M unit :=
  do this <- lift (type n) ;
  do cs <- lift (_parse_constraints constraints this) ;
  for_each (fun c => do t <- lift (type n) ; add_constraint t c) cs.

Definition struct_actions (n : string) (actions : list expr_record) : M unit :=
  do this <- lift (type n) ;
  do acts <- lift (_parse_actions actions this) ;
  for_each (fun a => do t <- lift (type n) ; add_action t a) acts.

Definition define_struct (irobj : irobj) : M unit :=
  lift (_validate_irtype irobj "Struct") ;;
  match irobj with
  | IRStruct n fields constraints actions =>
      struct_new n ;;
      struct_fields n fields ;;
      struct_constraints n constraints ;;
      struct_actions n actions ;;
      implement n "Sized" ;;
      implement n "Equality"
  | _ => raise UnsupportedConstruct
  end.

Definition define_enum (irobj : irobj) : M unit :=
  lift (_validate_irtype irobj "Enum") ;;
  match irobj with
  | IREnum n variants =>
      do variants <- lift (_parse_variants variants) ;
      (do t <- Enum n variants ; set_type n t) ;;
      implement n "Sized"
  | _ => raise UnsupportedConstruct
  end.

Definition derive_type (irobj : irobj) : M unit :=
  lift (_validate_irtype irobj "NewType") ;;
  match irobj with
  | IRNewType n derived_from implements =>
      do orig_type <- lift (type derived_from) ;
      (do t <- copy_type orig_type n ; set_type n t) ;;
      for_each (fun impl => implement n impl) implements
  | _ => raise UnsupportedConstruct
  end.

Definition define_function (irobj : irobj) : M unit := fun p =>
  if negb (String.eqb (construct irobj) "Function") then (Err UnsupportedConstruct, p)
  else if bool_decide (is_Some (_funcs p !! ir_name irobj)) then (Err DuplicateDefinition, p)
  else if negb (FUNC_NAME_REGEX (ir_name irobj)) then (Err MalformedName, p)
  else
    match irobj with
    | IRFunction n parameters return_type =>
        (do params <- lift (_parse_parameters parameters) ;
         do return_type <- lift (type return_type) ;
         set_func n {| func_name := n; func_parameters := params;
                       func_return_type := Some return_type |}) p
    | _ => (Err UnsupportedConstruct, p)
    end.

Definition define_context (irobj : irobj) : M unit := raise UnsupportedConstruct.

Definition typecheck : M unit := raise UnsupportedConstruct.

(** The public operations that take a type-constructor record. *)
Inductive operation :=
| op_define_bitstring | op_define_array | op_define_struct | op_define_enum
| op_derive_type | op_define_function | op_define_context.

Definition call (op : operation) : irobj -> M unit :=
  match op with
  | op_define_bitstring => define_bitstring
  | op_define_array => define_array
  | op_define_struct => define_struct
  | op_define_enum => define_enum
  | op_derive_type => derive_type
  | op_define_function => define_function
  | op_define_context => define_context
  end.

End protocol.




(** The names used by the unit tests fit this instance of the two patterns:
    a letter of the given case followed by one or more letters, digits,
    dollar signs or underscores. *)
Definition is_upper (c : Ascii.ascii) : bool :=
  ((65 <=? Ascii.nat_of_ascii c) && (Ascii.nat_of_ascii c <=? 90))%nat.
Definition is_lower (c : Ascii.ascii) : bool :=
  ((97 <=? Ascii.nat_of_ascii c) && (Ascii.nat_of_ascii c <=? 122))%nat.
Definition is_digit (c : Ascii.ascii) : bool :=
  ((48 <=? Ascii.nat_of_ascii c) && (Ascii.nat_of_ascii c <=? 57))%nat.
Definition is_word (c : Ascii.ascii) : bool :=
  is_upper c || is_lower c || is_digit c
  || (Ascii.nat_of_ascii c =? 36)%nat || (Ascii.nat_of_ascii c =? 95)%nat.

Definition identifier (first : Ascii.ascii -> bool) (s : string) : bool :=
  match s with
  | String c (String c' rest) =>
      first c && forallb is_word (String.list_ascii_of_string (String c' rest))
  | _ => false
  end.

Definition sample_type_name : string -> bool := identifier is_upper.
Definition sample_func_name : string -> bool := identifier is_lower.

(** The names of the traits [__init__] defines. *)
Definition builtin_traits : list string :=
  ["Value"; "Sized"; "IndexCollection"; "Equality"; "Ordinal"; "BooleanOps";
   "ArithmeticOps"].

(** ** Well-formed protocols *)

(** The invariant of the store: the trait map is the built-in one, the
    primitive types are registered, every identity in use denotes an object
    and is older than [next]. *)
Record wf (p : Protocol) : Prop := {
  wf_traits : _traits p = _traits init;
  wf_primitives :
    forall k, k ∈ ["Nothing"; "Boolean"; "Size"] -> is_Some (_types p !! k);
  wf_types : forall n l, _types p !! n = Some l -> is_Some (heap p !! l);
  wf_heap : forall l o, heap p !! l = Some o ->
    l < next p /\ traits o < next p /\ methods o < next p /\
    is_Some (trait_dicts p !! traits o) /\ is_Some (method_dicts p !! methods o);
  wf_trait_dicts : forall l, is_Some (trait_dicts p !! l) -> l < next p;
  wf_method_dicts : forall l, is_Some (method_dicts p !! l) -> l < next p
}.

(** A decidable certificate of [wf]. *)
Definition wfb (p : Protocol) : bool :=
  bool_decide (_traits p = _traits init)
  && forallb (fun k => bool_decide (is_Some (_types p !! k)))
       ["Nothing"; "Boolean"; "Size"]
  && forallb (fun nl => bool_decide (is_Some (heap p !! nl.2)))
       (map_to_list (_types p))
  && forallb (fun lo =>
                bool_decide (lo.1 < next p) && bool_decide (traits lo.2 < next p)
                && bool_decide (methods lo.2 < next p)
                && bool_decide (is_Some (trait_dicts p !! traits lo.2))
                && bool_decide (is_Some (method_dicts p !! methods lo.2)))
       (map_to_list (heap p))
  && forallb (fun ld => bool_decide (ld.1 < next p)) (map_to_list (trait_dicts p))
  && forallb (fun ld => bool_decide (ld.1 < next p)) (map_to_list (method_dicts p)).


(** The states a call can reach once it has registered a new object under
    the name [n]: apart from this registration, only the new object and its
    two dicts differ from what [p] holds. *)
Record extended (p : Protocol) (n : string) (p' : Protocol) : Prop := {
  ext_traits : _traits p' = _traits p;
  ext_funcs : _funcs p' = _funcs p;
  ext_types : _types p' = <[n := next p]> (_types p);
  ext_heap : forall l, l <> next p -> heap p' !! l = heap p !! l;
  ext_object : exists o,
    heap p' !! next p = Some o /\ traits o = next p /\ methods o = next p;
  ext_trait_dicts : forall l, l <> next p -> trait_dicts p' !! l = trait_dicts p !! l;
  ext_method_dicts : forall l, l <> next p -> method_dicts p' !! l = method_dicts p !! l
}.

(** [m] keeps [J], whether it returns or raises. *)
Definition preserves {A} (J : Protocol -> Prop) (m : M A) : Prop :=
  forall p r p', J p -> m p = (r, p') -> J p'.

(** The names of the traits a type implements, [None] for an identity without
    object. *)
Definition trait_names (l : loc) (p : Protocol) : option (gset string) :=
  match heap p !! l with
  | Some o => dom <$> trait_dicts p !! traits o
  | None => None
  end.

Definition method_table (l : loc) (p : Protocol) : option (gmap string Function) :=
  match heap p !! l with
  | Some o => method_dicts p !! methods o
  | None => None
  end.

Definition trait_table (l : loc) (p : Protocol) : option (gmap string Trait) :=
  match heap p !! l with
  | Some o => trait_dicts p !! traits o
  | None => None
  end.

Definition sample_bits (n : string) (size : Z) (p : Protocol) : Protocol :=
  (define_bitstring sample_type_name (IRBitString n size) p).2.

Definition const_true : expr_record := Constant "Boolean" (JString "True").

Definition self_field (n fn : string) (v : json_value) : field_record :=
  {| fr_name := fn; fr_type := n; fr_is_present := Constant "Boolean" v;
     fr_transform := None |}.

(** ** Protocols reached by calls *)

(** The allocation of the object of [extended] has moved [next] by one and the
    two dicts of the object exist. *)
Definition sized (p p' : Protocol) : Prop :=
  next p' = S (next p) /\
  is_Some (trait_dicts p' !! next p) /\ is_Some (method_dicts p' !! next p).

Definition grown (p : Protocol) (n : string) (p' : Protocol) : Prop :=
  extended p n p' /\ sized p p'.

(** The protocols obtained from [p] by calls of the public operations,
    whether they return or raise. *)
Inductive evolves (T F : string -> bool) (p : Protocol) : Protocol -> Prop :=
| evolves_refl : evolves T F p p
| evolves_call op o q r q' :
    evolves T F p q -> call T F op o q = (r, q') -> evolves T F p q'.

(** The operations that define a type. *)
Definition defines_type (op : operation) : Prop :=
  op <> op_define_function /\ op <> op_define_context.

(** What no call changes: the trait map, the registration of a type or of a
    function, an object, a dict. *)
Record kept (p p' : Protocol) : Prop := {
  kept_traits : _traits p' = _traits p;
  kept_types : forall n l, _types p !! n = Some l -> _types p' !! n = Some l;
  kept_funcs : forall n f, _funcs p !! n = Some f -> _funcs p' !! n = Some f;
  kept_heap : forall l, l < next p -> heap p' !! l = heap p !! l;
  kept_trait_dicts : forall l, l < next p -> trait_dicts p' !! l = trait_dicts p !! l;
  kept_method_dicts : forall l, l < next p -> method_dicts p' !! l = method_dicts p !! l;
  kept_next : next p <= next p'
}.

(** The fields of [fs] appended, one after the other, to the struct [l]. *)
Definition with_fields (l : loc) (fs : list Field) (p : Protocol) : Protocol :=
  fold_left (fun q f => update_obj l (with_shape (append_field f)) q) fs p.

Definition with_constraints (l : loc) (cs : list Expression) (p : Protocol) : Protocol :=
  fold_left (fun q c => update_obj l (with_shape (append_constraint c)) q) cs p.

Definition with_actions (l : loc) (acts : list Expression) (p : Protocol) : Protocol :=
  fold_left (fun q a => update_obj l (with_shape (append_action a)) q) acts p.

(** The record and the state of the unit test [test_define_struct]. *)
Definition test_struct_state : Protocol :=
  (define_function sample_func_name
     (IRFunction "transform_seq" [("seq", "SeqNum")] "SeqNumTrans")
     (sample_bits "Timestamp" 32
        (sample_bits "SeqNum" 16 (sample_bits "SeqNumTrans" 16 init)))).2.

Definition test_struct_fields : list field_record :=
  [ {| fr_name := "seq"; fr_type := "SeqNum"; fr_is_present := const_true;
       fr_transform := Some {| tr_into_name := "ext_seq"; tr_into_type := "SeqNumTrans";
                               tr_using := "transform_seq" |} |};
    {| fr_name := "ts"; fr_type := "Timestamp"; fr_is_present := const_true;
       fr_transform := None |} ].

Definition test_struct_constraints : list expr_record :=
  [ MethodInvocation (FieldAccess This "seq") "eq"
      [("other", Constant "SeqNum" (JNumber 47))] ].

End Registry.

(* ===================================================================== *)
(** * Properties of the dependency resolver                              *)
(* ===================================================================== *)

Module ResolverFacts.
Import Resolver.

Example dfs_chain :
dfs_protocol 3 (single_pdu chain_objs 0) = Ret ["C"; "B"; "A"].
Proof. vm_compute. reflexivity. Qed.

Example dfs_enum_cycle :
dfs_protocol 3 (single_pdu enum_objs 0) = Ret ["V"; "E"; "f"].
Proof. vm_compute. reflexivity. Qed.

Example dfs_loop_10 : dfs_protocol 10 (single_pdu loop_objs 0) = Diverge.
Proof. vm_compute. reflexivity. Qed.

Example dfs_ctx : dfs_protocol 5 (single_pdu ctx_objs 0) = Raise TypeError.
Proof. vm_compute. reflexivity. Qed.


(** ** More fuel never changes a run that has finished *)

Lemma below_refl {A} (m : outcome A) : below m m.
Proof. by right. Qed.

Lemma below_trans {A} (m1 m2 m3 : outcome A) :
below m1 m2 -> below m2 m3 -> below m1 m3.
Proof. intros [-> | ->] H; [by left | done]. Qed.

Lemma below_Ret {A} (m1 m2 : outcome A) a :
below m1 m2 -> m1 = Ret a -> m2 = Ret a.
Proof. intros [-> | ->]; [discriminate | done]. Qed.

Lemma below_bind {A B} (m1 m2 : outcome A) (k1 k2 : A -> outcome B) :
below m1 m2 -> (forall a, below (k1 a) (k2 a)) ->
below (obind m1 k1) (obind m2 k2).
Proof.
intros [-> | ->] Hk; [by left |].
destruct m2; simpl; [apply Hk | by right | by left].
Qed.

Lemma for_each_below {A} (b1 b2 : A -> list string -> outcome (list string)) :
(forall x tn, below (b1 x tn) (b2 x tn)) ->
forall xs tn, below (for_each b1 xs tn) (for_each b2 xs tn).
Proof.
intros Hb xs. induction xs as [|x xs IH]; intros tn; simpl.
- apply below_refl.
- apply below_bind; [apply Hb | apply IH].
Qed.

Section mono.
Variable objs : gmap loc ProtocolType.
Variables rec1 rec2 : option loc -> list string -> outcome (list string).
Hypothesis Hrec : forall pt tn, below (rec1 pt tn) (rec2 pt tn).

Lemma dfs_struct_below fields tn :
  below (dfs_struct rec1 fields tn) (dfs_struct rec2 fields tn).
Proof. apply for_each_below. intros; apply Hrec. Qed.

Lemma dfs_enum_below n vs pf st tn :
  below (dfs_enum rec1 n vs pf st tn) (dfs_enum rec2 n vs pf st tn).
Proof.
  unfold dfs_enum. apply below_bind; [by apply for_each_below |].
  intros a. apply below_bind; [apply Hrec | intros; apply Hrec].
Qed.

Lemma dfs_guarded_below l tn :
  below (dfs_guarded objs rec1 l tn) (dfs_guarded objs rec2 l tn).
Proof.
  unfold dfs_guarded. apply below_bind; [apply below_refl |].
  intros n. destruct (not_in n tn); [apply Hrec | apply below_refl].
Qed.

Lemma dfs_function_below ps rt tn :
  below (dfs_function objs rec1 ps rt tn) (dfs_function objs rec2 ps rt tn).
Proof.
  unfold dfs_function. apply below_bind.
  - apply for_each_below. intros; apply dfs_guarded_below.
  - intros; apply dfs_guarded_below.
Qed.
End mono.

Lemma dfs_protocoltype_S objs fuel : forall pt tn,
  below (dfs_protocoltype objs fuel pt tn) (dfs_protocoltype objs (S fuel) pt tn).
Proof.
  induction fuel as [|fuel IH]; intros pt tn; [by left |].
  change (dfs_protocoltype objs (S (S fuel)) pt tn) with
(match pt with
 | None => Ret tn
 | Some l =>
   match objs !! l with
   | None => Raise DanglingRef
   | Some obj =>
     do t <- match obj with
           | Struct _ fields => dfs_struct (dfs_protocoltype objs (S fuel)) fields tn
           | Array _ et _ => dfs_array (dfs_protocoltype objs (S fuel)) et tn
           | Enum n vs pf st => dfs_enum (dfs_protocoltype objs (S fuel)) n vs pf st tn
           | Function _ ps rt => dfs_function objs (dfs_protocoltype objs (S fuel)) ps rt tn
           | Context _ fs => dfs_context fs tn
           | BitString _ _ => Ret tn
           end ;
     Ret (t ++ [name obj])
   end
 end).
  simpl. destruct pt as [l|]; [|apply below_refl].
  destruct (objs !! l) as [obj|]; [|apply below_refl].
  apply below_bind; [|intros; apply below_refl].
  destruct obj.
  - apply below_refl.
  - by apply dfs_struct_below.
  - apply IH.
  - by apply dfs_enum_below.
  - by apply dfs_function_below.
  - apply below_refl.
Qed.

Lemma dfs_protocoltype_mono objs f f' pt tn :
  f <= f' ->
  below (dfs_protocoltype objs f pt tn) (dfs_protocoltype objs f' pt tn).
Proof.
  induction 1 as [|f' _ IH]; [apply below_refl |].
  eapply below_trans; [apply IH | apply dfs_protocoltype_S].
Qed.


Lemma dfs_protocoltype_unfold objs fuel l tn :
  dfs_protocoltype objs (S fuel) (Some l) tn =
  match objs !! l with
  | None => Raise DanglingRef
  | Some obj =>
do t <- match obj with
      | Struct _ fields => dfs_struct (dfs_protocoltype objs fuel) fields tn
      | Array _ et _ => dfs_array (dfs_protocoltype objs fuel) et tn
      | Enum n vs pf st => dfs_enum (dfs_protocoltype objs fuel) n vs pf st tn
      | Function _ ps rt => dfs_function objs (dfs_protocoltype objs fuel) ps rt tn
      | Context _ fs => dfs_context fs tn
      | BitString _ _ => Ret tn
      end ;
Ret (t ++ [name obj])
  end.
Proof. reflexivity. Qed.

Lemma obind_Ret_inv {A B} (m : outcome A) (k : A -> outcome B) b :
  obind m k = Ret b -> exists a, m = Ret a /\ k a = Ret b.
Proof. destruct m; simpl; [eauto | discriminate | discriminate]. Qed.

(** ** Termination on acyclic protocols *)

Lemma mono_dfs objs pt : mono (fun f => dfs_protocoltype objs f pt).
Proof. intros f f' tn Hle. by apply dfs_protocoltype_mono. Qed.

Lemma mono_seq c1 c2 :
  mono c1 -> mono c2 -> mono (fun f tn => do t <- c1 f tn ; c2 f t).
Proof.
  intros H1 H2 f f' tn Hle. apply below_bind; [by apply H1 | intros; by apply H2].
Qed.

Lemma terminates_seq c1 c2 :
  mono c1 -> mono c2 -> terminates c1 -> terminates c2 ->
  terminates (fun f tn => do t <- c1 f tn ; c2 f t).
Proof.
  intros M1 M2 T1 T2 tn.
  destruct (T1 tn) as (f1 & t1 & E1). destruct (T2 t1) as (f2 & t2 & E2).
  exists (f1 `max` f2), t2.
  rewrite (below_Ret _ _ _ (M1 f1 (f1 `max` f2) tn ltac:(lia)) E1). simpl.
  apply (below_Ret _ _ _ (M2 f2 (f1 `max` f2) t1 ltac:(lia)) E2).
Qed.

Lemma mono_for_each {A} (body : nat -> A -> list string -> outcome (list string)) xs :
  (forall x, mono (fun f => body f x)) ->
  mono (fun f => for_each (body f) xs).
Proof.
  intros M f f' tn Hle. apply for_each_below. intros x t. by apply M.
Qed.

Lemma terminates_for_each {A}
(body : nat -> A -> list string -> outcome (list string)) xs :
  (forall x, mono (fun f => body f x)) ->
  (forall x, x ∈ xs -> terminates (fun f => body f x)) ->
  terminates (fun f => for_each (body f) xs).
Proof.
  intros M. induction xs as [|x xs IH]; intros T.
  - intros tn. by exists 0, tn.
  - apply (terminates_seq (fun f => body f x) (fun f => for_each (body f) xs)).
+ apply M.
+ by apply mono_for_each.
+ apply T. by left.
+ apply IH. intros y Hy. apply T. by right.
Qed.

Lemma mono_guarded objs l :
  mono (fun f => dfs_guarded objs (dfs_protocoltype objs f) l).
Proof.
  intros f f' tn Hle. apply dfs_guarded_below. intros. by apply dfs_protocoltype_mono.
Qed.

Lemma terminates_guarded objs l :
  is_Some (objs !! l) ->
  terminates (fun f => dfs_protocoltype objs f (Some l)) ->
  terminates (fun f => dfs_guarded objs (dfs_protocoltype objs f) l).
Proof.
  intros [obj Hobj] T tn. unfold dfs_guarded, name_of. rewrite Hobj. simpl.
  destruct (not_in (name obj) tn); [apply T | by exists 0, tn].
Qed.

Lemma terminates_None objs : terminates (fun f => dfs_protocoltype objs f None).
Proof. intros tn. by exists 1, tn. Qed.

Section termination.
Variable objs : gmap loc ProtocolType.
Hypothesis Hclosed : forall l l', edge objs l l' -> is_Some (objs !! l').
Hypothesis Hctx : no_context_fields objs.

Local Abbreviation dfs := (dfs_protocoltype objs).

Lemma dfs_terminates_Acc l :
  Acc (flip (edge objs)) l -> is_Some (objs !! l) ->
  terminates (fun f => dfs f (Some l)).
Proof.
  induction 1 as [l _ IH]. intros [obj Hobj].
  assert (Hrefs : forall r, r ∈ refs obj -> terminates (fun f => dfs f r)).
  { intros [l'|] Hr; [|apply terminates_None].
  assert (edge objs l l') as He by (exists obj; done).
  apply IH; [done | by apply (Hclosed l)]. }
  assert (Hsome : forall l', Some l' ∈ refs obj -> is_Some (objs !! l')).
  { intros l' Hr. apply (Hclosed l). by exists obj. }
  assert (terminates (fun f tn =>
  match obj with
  | Struct _ fields => dfs_struct (dfs f) fields tn
  | Array _ et _ => dfs_array (dfs f) et tn
  | Enum n vs pf st => dfs_enum (dfs f) n vs pf st tn
  | Function _ ps rt => dfs_function objs (dfs f) ps rt tn
  | Context _ fs => dfs_context fs tn
  | BitString _ _ => Ret tn
  end)) as T.
  { destruct obj as [n sz|n fields|n et len|n vs pf st|n ps rt|n fs]; simpl in *.
  - intros tn. by exists 0, tn.
  - apply (terminates_for_each (fun f fld => dfs f (field_type fld))).
+ intros x. apply mono_dfs.
+ intros x Hx. apply Hrefs. by apply list_elem_of_fmap_2.
  - apply Hrefs. by left.
  - unfold dfs_enum.
apply (terminates_seq (fun f => for_each (dfs f) vs)
         (fun f t => do t' <- dfs f pf (t ++ [n]) ; dfs f st t')).
+ apply (mono_for_each (fun f r => dfs f r)). intros; apply mono_dfs.
+ intros f f' tn Hle.
  apply below_bind; [by apply dfs_protocoltype_mono |].
  intros; by apply dfs_protocoltype_mono.
+ apply (terminates_for_each (fun f r => dfs f r)).
  * intros; apply mono_dfs.
  * intros r Hr. apply Hrefs. apply elem_of_app. by left.
+ intros tn.
  destruct (terminates_seq (fun f => dfs f pf) (fun f => dfs f st)
              (mono_dfs _ _) (mono_dfs _ _)) with (tn := tn ++ [n])
    as (f & t & E); [| |by eauto].
  * apply Hrefs. apply elem_of_app. right. by left.
  * apply Hrefs. apply elem_of_app. right. right. by left.
  - unfold dfs_function.
apply (terminates_seq
         (fun f => for_each (fun p => dfs_guarded objs (dfs f) (param_type p)) ps)
         (fun f => dfs_guarded objs (dfs f) rt)).
+ apply (mono_for_each (fun f p => dfs_guarded objs (dfs f) (param_type p))).
  intros; apply mono_guarded.
+ apply mono_guarded.
+ apply (terminates_for_each
           (fun f p => dfs_guarded objs (dfs f) (param_type p))).
  * intros; apply mono_guarded.
  * intros p Hp.
    assert (Some (param_type p) ∈
            ((fun p => Some (param_type p)) <$> ps) ++ [Some rt]) as Hin.
    { apply elem_of_app. left.
      by apply (list_elem_of_fmap_2 (fun p => Some (param_type p))). }
    apply terminates_guarded; [by apply Hsome | by apply Hrefs].
+ assert (Some rt ∈ ((fun p => Some (param_type p)) <$> ps) ++ [Some rt]) as Hin.
  { apply elem_of_app. right. by left. }
  apply terminates_guarded; [by apply Hsome | by apply Hrefs].
  - rewrite (Hctx l n fs Hobj). intros tn. by exists 0, tn. }
  intros tn. destruct (T tn) as (f & t & E).
  exists (S f), (t ++ [name obj]).
  rewrite dfs_protocoltype_unfold, Hobj, E. done.
Qed.
End termination.

(** ** A finite store without reachable cycles is well founded *)

Lemma hard_edge_edge objs l l' : hard_edge objs l l' -> edge objs l l'.
Proof.
  intros (pt & Hpt & Hin). exists pt. split; [done |].
  destruct pt; simpl in *; try done; by apply not_elem_of_nil in Hin.
Qed.

Lemma tc_edge_dom objs l l' : tc (edge objs) l l' -> l ∈ dom objs.
Proof.
  intros H. apply elem_of_dom.
  destruct H as [x y (pt & Hpt & _)|x y z (pt & Hpt & _) _]; eauto.
Qed.

Lemma NoDup_dom_length (objs : gmap loc ProtocolType) (path : list loc) :
  NoDup path -> (forall x, x ∈ path -> x ∈ dom objs) ->
  length path <= size (dom objs).
Proof.
  intros Hnd Hin.
  rewrite <- (size_list_to_set (C := gset loc) path Hnd).
  apply subseteq_size. intros x Hx. apply Hin. by apply elem_of_list_to_set in Hx.
Qed.

Lemma acyclic_Acc_path objs n : forall (path : list loc) l,
  NoDup path ->
  (forall x, x ∈ path -> tc (edge objs) x l) ->
  size (dom objs) <= length path + n ->
  (forall l', rtc (edge objs) l l' -> ~ tc (edge objs) l' l') ->
  Acc (flip (edge objs)) l.
Proof.
  induction n as [|n IH]; intros path l Hnd Hpath Hsize Hacyc;
    constructor; intros l' He; unfold flip in He.
  - exfalso.
    assert (l ∉ path) as Hl.
    { intros Hin. apply (Hacyc l); [done | by apply Hpath]. }
    assert (length (l :: path) <= size (dom objs)) as Hlen.
    { apply NoDup_dom_length; [by constructor |].
intros x [->|Hx]%elem_of_cons.
- apply (tc_edge_dom objs l l'). by apply tc_once.
- apply (tc_edge_dom objs x l). by apply Hpath. }
    simpl in Hlen. lia.
  - apply (IH (l :: path)).
    + constructor; [|done].
intros Hin. apply (Hacyc l); [done | by apply Hpath].
    + intros x [->|Hx]%elem_of_cons; [by apply tc_once |].
eapply tc_r; [by apply Hpath | done].
    + simpl. lia.
    + intros l'' Hr. apply Hacyc. by eapply rtc_l.
Qed.

Lemma acyclic_Acc objs l :
  (forall l', rtc (edge objs) l l' -> ~ tc (edge objs) l' l') ->
  Acc (flip (edge objs)) l.
Proof.
  intros H. apply (acyclic_Acc_path objs (size (dom objs)) []).
  - constructor.
  - intros x Hx. by apply not_elem_of_nil in Hx.
  - simpl. lia.
  - exact H.
Qed.

(** ** Runs that never return *)

Lemma for_each_Ret_inv {A} (body : A -> list string -> outcome (list string)) xs :
  forall tn tn', for_each body xs tn = Ret tn' ->
  forall x, x ∈ xs -> exists t t', body x t = Ret t'.
Proof.
  induction xs as [|y xs IH]; intros tn tn' E x Hx.
  - by apply not_elem_of_nil in Hx.
  - simpl in E. apply obind_Ret_inv in E as (t & E1 & E2).
    apply elem_of_cons in Hx as [->|Hx]; [eauto | by eapply IH].
Qed.

(** The objects from which a cycle of unconditional references is reached
    through unconditional references. *)
Lemma doomed_step objs l l' :
  rtc (hard_edge objs) l l' -> tc (hard_edge objs) l' l' ->
  exists l1 l1', hard_edge objs l l1 /\
    rtc (hard_edge objs) l1 l1' /\ tc (hard_edge objs) l1' l1'.
Proof.
  intros Hr Hc. apply rtc_inv in Hr as [->|(y & He & Hr)].
  - inversion Hc as [x y He|x y z He Ht]; subst.
    + exists l', l'. split; [done |]. split; [done | by apply tc_once].
    + exists y, l'. split; [done |]. split; [by apply tc_rtc | done].
  - exists y, l'. done.
Qed.

Lemma dfs_doomed objs fuel : forall l l' tn out,
  rtc (hard_edge objs) l l' -> tc (hard_edge objs) l' l' ->
  dfs_protocoltype objs fuel (Some l) tn <> Ret out.
Proof.
  induction fuel as [|fuel IH]; intros l l' tn out Hr Hc; [done |].
  destruct (doomed_step objs l l' Hr Hc) as (l1 & l1' & (pt & Hpt & Hin) & Hr1 & Hc1).
  rewrite dfs_protocoltype_unfold, Hpt. intros E.
  apply obind_Ret_inv in E as (t & E & _).
  destruct pt as [n sz|n fields|n et len|n vs pf st|n ps rt|n fs]; simpl in Hin.
  - by apply not_elem_of_nil in Hin.
  - apply list_elem_of_fmap in Hin as (fld & Hfld & Hin).
    destruct (for_each_Ret_inv _ _ _ _ E fld Hin) as (t1 & t2 & E1).
    rewrite <- Hfld in E1. by apply (IH l1 l1' t1 t2).
  - apply list_elem_of_singleton in Hin as <-. by apply (IH l1 l1' tn t).
  - unfold dfs_enum in E.
    apply obind_Ret_inv in E as (t1 & E1 & E).
    apply obind_Ret_inv in E as (t2 & E2 & E3).
    apply elem_of_app in Hin as [Hin|Hin].
    + destruct (for_each_Ret_inv _ _ _ _ E1 _ Hin) as (t3 & t4 & E4).
by apply (IH l1 l1' t3 t4).
    + apply elem_of_cons in Hin as [<-|Hin]; [by apply (IH l1 l1' (t1 ++ [n]) t2) |].
apply list_elem_of_singleton in Hin as <-. by apply (IH l1 l1' t2 t).
  - by apply not_elem_of_nil in Hin.
  - by apply not_elem_of_nil in Hin.
Qed.

(** ** Runs that never raise *)

Lemma obind_Raise_inv {A B} (m : outcome A) (k : A -> outcome B) e :
  obind m k = Raise e -> m = Raise e \/ exists a, m = Ret a /\ k a = Raise e.
Proof. destruct m; simpl; [eauto | intros [= ->]; eauto | discriminate]. Qed.

Lemma for_each_no_raise {A} (body : A -> list string -> outcome (list string)) xs e :
  (forall x, x ∈ xs -> forall tn, body x tn <> Raise e) ->
  forall tn, for_each body xs tn <> Raise e.
Proof.
  induction xs as [|x xs IH]; intros Hb tn; simpl; [done |].
  intros [E|(t & _ & E)]%obind_Raise_inv.
  - by apply (Hb x ltac:(left) tn).
  - apply (IH ltac:(intros y Hy; apply Hb; by right) t E).
Qed.

Section no_raise.
Variable objs : gmap loc ProtocolType.
Hypothesis Hclosed : forall l l', edge objs l l' -> is_Some (objs !! l').
Hypothesis Hctx : no_context_fields objs.

Local Abbreviation dfs := (dfs_protocoltype objs).

Lemma dfs_guarded_no_raise rec l e :
  is_Some (objs !! l) ->
  (forall tn, rec (Some l) tn <> Raise e) ->
  forall tn, dfs_guarded objs rec l tn <> Raise e.
Proof.
  intros [obj Hobj] Hrec tn. unfold dfs_guarded, name_of. rewrite Hobj. simpl.
  destruct (not_in (name obj) tn); [apply Hrec | done].
Qed.

Lemma dfs_no_raise fuel : forall pt tn e,
  (forall l, pt = Some l -> is_Some (objs !! l)) ->
  dfs fuel pt tn <> Raise e.
Proof.
  induction fuel as [|fuel IH]; intros pt tn e Hpt; [done |].
  destruct pt as [l|]; [|done].
  destruct (Hpt l eq_refl) as [obj Hobj].
  rewrite dfs_protocoltype_unfold, Hobj.
  assert (Hrefs : forall r t, r ∈ refs obj -> dfs fuel r t <> Raise e).
  { intros r t Hr. apply IH. intros l' ->. apply (Hclosed l). by exists obj. }
  assert (Hsome : forall l', Some l' ∈ refs obj -> is_Some (objs !! l')).
  { intros l' Hr. apply (Hclosed l). by exists obj. }
  intros [E|(t & _ & E)]%obind_Raise_inv; [|done].
  revert E.
  destruct obj as [n sz|n fields|n et len|n vs pf st|n ps rt|n fs]; simpl in *.
  - done.
  - apply for_each_no_raise. intros x Hx t.
    apply Hrefs. by apply list_elem_of_fmap_2.
  - apply Hrefs. by left.
  - unfold dfs_enum. intros [E|(t1 & _ & E)]%obind_Raise_inv.
    + revert E. apply for_each_no_raise. intros x Hx t.
  apply Hrefs. apply elem_of_app. by left.
    + apply obind_Raise_inv in E as [E|(t2 & _ & E)]; revert E; apply Hrefs;
apply elem_of_app; right; [by left | right; by left].
  - unfold dfs_function. intros [E|(t1 & _ & E)]%obind_Raise_inv; revert E.
    + apply for_each_no_raise. intros p Hp t.
  assert (Some (param_type p) ∈
      ((fun p => Some (param_type p)) <$> ps) ++ [Some rt]) as Hin.
  { apply elem_of_app. left.
by apply (list_elem_of_fmap_2 (fun p => Some (param_type p))). }
  apply dfs_guarded_no_raise; [by apply Hsome |]. intros; by apply Hrefs.
    + assert (Some rt ∈ ((fun p => Some (param_type p)) <$> ps) ++ [Some rt]) as Hin.
  { apply elem_of_app. right. by left. }
  apply dfs_guarded_no_raise; [by apply Hsome |]. intros; by apply Hrefs.
  - by rewrite (Hctx l n fs Hobj).
Qed.
End no_raise.

(** ** Decidable certificates for concrete stores *)

Lemma forallb_map_to_list (objs : gmap loc ProtocolType) (P : loc * ProtocolType -> bool) :
  forallb P (map_to_list objs) = true ->
  forall l pt, objs !! l = Some pt -> P (l, pt) = true.
Proof.
  intros H l pt Hl. rewrite forallb_forall in H. apply H.
  apply list_elem_of_In. by apply elem_of_map_to_list.
Qed.

Lemma forallb_elem_of {A} (P : A -> bool) (xs : list A) x :
  forallb P xs = true -> x ∈ xs -> P x = true.
Proof. rewrite forallb_forall. intros H Hx. apply H. by apply list_elem_of_In. Qed.

Lemma bound_refs_closed objs l l' :
  bound_refs objs = true -> edge objs l l' -> is_Some (objs !! l').
Proof.
  intros H (pt & Hpt & Hin).
  pose proof (forallb_map_to_list objs _ H l pt Hpt) as H1. simpl in H1.
  pose proof (forallb_elem_of _ _ _ H1 Hin) as H2. simpl in H2.
  by apply bool_decide_eq_true in H2.
Qed.

Lemma ranked_edge objs rk l l' :
  ranked objs rk = true -> edge objs l l' -> rk l' < rk l.
Proof.
  intros H (pt & Hpt & Hin).
  pose proof (forallb_map_to_list objs _ H l pt Hpt) as H1. simpl in H1.
  pose proof (forallb_elem_of _ _ _ H1 Hin) as H2. simpl in H2.
  apply andb_true_iff in H2 as [_ H2]. by apply bool_decide_eq_true in H2.
Qed.

Lemma ranked_tc objs rk l l' :
  ranked objs rk = true -> tc (edge objs) l l' -> rk l' < rk l.
Proof.
  intros H. induction 1 as [x y He|x y z He _ IH].
  - by eapply ranked_edge.
  - pose proof (ranked_edge objs rk x y H He). lia.
Qed.

Lemma ranked_acyclic objs rk names pdu :
  ranked objs rk = true ->
  acyclic {| objects := objs; get_pdu_names := names; get_pdu := pdu |}.
Proof.
  intros H l l' _ _ Hc. simpl in Hc.
  pose proof (ranked_tc objs rk l' l' H Hc). lia.
Qed.

Lemma context_free_no_fields objs :
  context_free objs = true -> no_context_fields objs.
Proof.
  intros H l n fields Hl.
  pose proof (forallb_map_to_list objs _ H l _ Hl) as H1. simpl in H1.
  by destruct fields.
Qed.

Lemma NoDup_fmap_eq {A B} (f : A -> B) (xs : list A) x y :
  NoDup (f <$> xs) -> x ∈ xs -> y ∈ xs -> f x = f y -> x = y.
Proof.
  induction xs as [|z xs IH]; intros Hnd Hx Hy Hf.
  - by apply not_elem_of_nil in Hx.
  - rewrite fmap_cons in Hnd. apply NoDup_cons in Hnd as [Hz Hnd].
    apply elem_of_cons in Hx as [->|Hx]; apply elem_of_cons in Hy as [->|Hy].
    + done.
    + exfalso. apply Hz. rewrite Hf. by apply list_elem_of_fmap_2.
    + exfalso. apply Hz. rewrite <- Hf. by apply list_elem_of_fmap_2.
    + by apply IH.
Qed.

Lemma distinct_names_unique objs :
  distinct_names objs = true -> unique_names objs.
Proof.
  intros H l1 l2 o1 o2 H1 H2 Hn.
  apply bool_decide_eq_true in H.
  apply elem_of_map_to_list in H1, H2.
  by pose proof (NoDup_fmap_eq (fun lp : loc * ProtocolType => name lp.2)
           _ (l1, o1) (l2, o2) H H1 H2 Hn) as [= -> ->].
Qed.

Lemma single_pdu_closed objs l :
  bound_refs objs = true -> bound_ref objs (Some l) = true ->
  closed (single_pdu objs l).
Proof.
  intros H Hl. apply bool_decide_eq_true in Hl. split.
  - intros l' Hin. unfold roots in Hin. simpl in Hin.
    by apply list_elem_of_singleton in Hin as [= ->].
  - intros l1 l2. by apply bound_refs_closed.
Qed.

(** ** Termination of [dfs_protocol] *)

Lemma dfs_protocol_returns protocol :
  closed protocol -> no_context_fields (objects protocol) -> acyclic protocol ->
  exists fuel out, dfs_protocol fuel protocol = Ret out.
Proof.
  intros [Hroots Hclosed] Hctx Hacyc.
  destruct (terminates_for_each
      (fun f pdu_name =>
         dfs_protocoltype (objects protocol) f (get_pdu protocol pdu_name))
      (get_pdu_names protocol)) with (tn := @nil string) as (f & tn & E).
  - intros x. apply mono_dfs.
  - intros pdu_name Hin.
    destruct (get_pdu protocol pdu_name) as [l|] eqn:Hpdu; [|apply terminates_None].
    assert (Some l ∈ roots protocol) as Hroot.
    { unfold roots. rewrite <- Hpdu. by apply list_elem_of_fmap_2. }
    apply dfs_terminates_Acc; [done | done | | by apply Hroots].
    apply acyclic_Acc. intros l'. by apply Hacyc.
  - exists f, (dedupe tn []). unfold dfs_protocol. by rewrite E.
Qed.

Lemma dfs_protocol_no_raise protocol fuel e :
  closed protocol -> no_context_fields (objects protocol) ->
  dfs_protocol fuel protocol <> Raise e.
Proof.
  intros [Hroots Hclosed] Hctx. unfold dfs_protocol.
  intros [E|(t & _ & E)]%obind_Raise_inv; [|done].
  revert E. apply for_each_no_raise. intros pdu_name Hin tn.
  apply dfs_no_raise; [done | done |].
  intros l Hl. apply Hroots. unfold roots. rewrite <- Hl.
  by apply list_elem_of_fmap_2.
Qed.

Lemma dfs_protocol_doomed protocol fuel out :
  hard_cycle protocol -> dfs_protocol fuel protocol <> Ret out.
Proof.
  intros (l & l' & Hroot & Hr & Hc) E. unfold dfs_protocol in E.
  apply obind_Ret_inv in E as (tn & E & _).
  unfold roots in Hroot. apply list_elem_of_fmap in Hroot as (pdu_name & Hpdu & Hin).
  destruct (for_each_Ret_inv _ _ _ _ E pdu_name Hin) as (t & t' & E1).
  rewrite <- Hpdu in E1. by apply (dfs_doomed _ _ _ _ _ _ Hr Hc) in E1.
Qed.

(** C3 (as amended).  On a protocol whose references all denote objects and
    whose contexts have no fields: if no object reachable from a PDU root lies
    on a reference cycle, the traversal returns a sequence once it is given
    enough depth; if a root reaches, through references of structs, arrays and
    enums, a cycle made of such references, the traversal exhausts every
    depth, that is, it never terminates. *)
Theorem dfs_protocol_termination protocol :
  closed protocol -> no_context_fields (objects protocol) ->
  (acyclic protocol -> exists fuel out, dfs_protocol fuel protocol = Ret out) /\
  (hard_cycle protocol -> forall fuel, dfs_protocol fuel protocol = Diverge).
Proof.
  intros Hclosed Hctx. split.
  - by apply dfs_protocol_returns.
  - intros Hcyc fuel.
    destruct (dfs_protocol fuel protocol) as [out|e|] eqn:E; [| |done].
    + by apply dfs_protocol_doomed in E.
    + by apply dfs_protocol_no_raise in E.
Qed.

Lemma loop_hard_cycle : hard_cycle (single_pdu loop_objs 0).
Proof.
  exists 0, 0. split; [by left |]. split; [done |].
  apply tc_once. exists (Struct "L" [fld "next" 0]). split; [done | by left].
Qed.

Lemma dfs_protocol_termination_witness :
  (exists fuel out, dfs_protocol fuel (single_pdu chain_objs 0) = Ret out) /\
  (forall fuel, dfs_protocol fuel (single_pdu loop_objs 0) = Diverge).
Proof.
  split.
  - apply (dfs_protocol_termination (single_pdu chain_objs 0)).
    + apply single_pdu_closed; [by vm_compute | by vm_compute].
    + apply context_free_no_fields. by vm_compute.
    + apply (ranked_acyclic _ (fun l => 3 - l)). by vm_compute.
  - apply (dfs_protocol_termination (single_pdu loop_objs 0)).
    + apply single_pdu_closed; [by vm_compute | by vm_compute].
    + apply context_free_no_fields. by vm_compute.
    + apply loop_hard_cycle.
Defined.

(** C3 (as stated) fails: an enum whose conversion function takes and returns
    the enum lies on a reference cycle reachable from the root, and the
    traversal terminates, since [dfs_enum] records the name of the enum before
    it visits the conversions and [dfs_function] skips recorded names. *)
Lemma dfs_protocol_cycle_terminates :
  Some 0 ∈ roots (single_pdu enum_objs 0) /\
  tc (edge enum_objs) 0 0 /\
  dfs_protocol 3 (single_pdu enum_objs 0) = Ret ["V"; "E"; "f"].
Proof.
  split; [by left |]. split; [|by vm_compute].
  apply (tc_l _ 0 1 0).
  - exists (Enum "E" [Some 2] (Some 1) None). split; [done |].
    simpl. right. by left.
  - apply tc_once.
    exists (Function "f" [{| param_name := "x"; param_type := 0 |}] 0).
    split; [done |]. by left.
Qed.

(** ** Idempotence *)



(** ** Post-order: the names a struct depends on come first *)

Lemma preceded_nil x y : preceded x y [].
Proof. intros i Hi. by rewrite lookup_nil in Hi. Qed.

Lemma preceded_snoc_other x y n tn :
  n <> y -> preceded x y tn -> preceded x y (tn ++ [n]).
Proof.
  intros Hn H i Hi. apply lookup_snoc_Some in Hi as [[Hlt Hi]|[_ Hi]]; [|done].
  rewrite take_app_le by lia. by apply H.
Qed.

Lemma preceded_snoc_same x y tn :
  x ∈ tn -> preceded x y tn -> preceded x y (tn ++ [y]).
Proof.
  intros Hx H i Hi. apply lookup_snoc_Some in Hi as [[Hlt Hi]|[-> _]].
  - rewrite take_app_le by lia. by apply H.
  - by rewrite take_app_length.
Qed.

Lemma extends_refl x y tn : extends x y tn tn.
Proof. split; [done | auto]. Qed.

Lemma extends_trans x y t1 t2 t3 :
  extends x y t1 t2 -> extends x y t2 t3 -> extends x y t1 t3.
Proof. intros [P1 Q1] [P2 Q2]. split; [by etrans | auto]. Qed.

Lemma for_each_extends {A} x y
    (body : A -> list string -> outcome (list string)) xs :
  (forall z t t', z ∈ xs -> body z t = Ret t' -> extends x y t t') ->
  forall tn tn', for_each body xs tn = Ret tn' -> extends x y tn tn'.
Proof.
  induction xs as [|z xs IH]; intros Hb tn tn' E; simpl in E.
  - injection E as <-. apply extends_refl.
  - apply obind_Ret_inv in E as (t & E1 & E2).
    apply (extends_trans _ _ _ t).
    + apply (Hb z); [by left | done].
    + apply IH; [|done]. intros z' t1 t2 Hz. apply Hb. by right.
Qed.

Lemma for_each_prefix {A} (body : A -> list string -> outcome (list string)) xs :
  (forall z t t', z ∈ xs -> body z t = Ret t' -> t `prefix_of` t') ->
  forall tn tn', for_each body xs tn = Ret tn' -> tn `prefix_of` tn'.
Proof.
  induction xs as [|z xs IH]; intros Hb tn tn' E; simpl in E.
  - by injection E as <-.
  - apply obind_Ret_inv in E as (t & E1 & E2). etrans.
    + apply (Hb z); [by left | done].
    + apply IH; [|done]. intros z' t1 t2 Hz. apply Hb. by right.
Qed.

Lemma for_each_visits {A} (body : A -> list string -> outcome (list string)) xs :
  (forall z t t', z ∈ xs -> body z t = Ret t' -> t `prefix_of` t') ->
  forall tn tn' z, for_each body xs tn = Ret tn' -> z ∈ xs ->
  exists t t', body z t = Ret t' /\ t' `prefix_of` tn'.
Proof.
  induction xs as [|z0 xs IH]; intros Hb tn tn' z E Hz; simpl in E.
  - by apply not_elem_of_nil in Hz.
  - apply obind_Ret_inv in E as (t & E1 & E2).
    assert (forall z' t1 t2, z' ∈ xs -> body z' t1 = Ret t2 -> t1 `prefix_of` t2)
      as Hxs by (intros z' t1 t2 Hz'; apply Hb; by right).
    apply elem_of_cons in Hz as [->|Hz].
    + exists tn, t. split; [done |]. by apply (for_each_prefix body xs).
    + by apply (IH Hxs t).
Qed.

Section order.
Variable objs : gmap loc ProtocolType.
Variables x y : string.
Hypothesis Hdep : depends_on objs x y.

Local Abbreviation dfs := (dfs_protocoltype objs).

Lemma dfs_guarded_extends rec l tn tn' :
  (forall t t', rec (Some l) t = Ret t' -> extends x y t t') ->
  dfs_guarded objs rec l tn = Ret tn' -> extends x y tn tn'.
Proof.
  intros Hrec E. unfold dfs_guarded in E.
  apply obind_Ret_inv in E as (n & _ & E).
  destruct (not_in n tn); [by apply Hrec |].
  injection E as <-. apply extends_refl.
Qed.

Lemma dfs_order fuel : forall pt tn tn',
  dfs fuel pt tn = Ret tn' ->
  extends x y tn tn' /\
  (forall l obj, pt = Some l -> objs !! l = Some obj -> name obj ∈ tn').
Proof.
  induction fuel as [|fuel IH]; intros pt tn tn' E; [done |].
  destruct pt as [l|]; [|injection E as <-; split; [apply extends_refl | done]].
  rewrite dfs_protocoltype_unfold in E.
  destruct (objs !! l) as [obj|] eqn:Hobj; [|done].
  apply obind_Ret_inv in E as (t & E & [= <-]).
  assert (Hext : forall r t1 t2, dfs fuel r t1 = Ret t2 -> extends x y t1 t2)
    by (intros r t1 t2 E1; by apply (IH r)).
  assert (Hpre : forall r t1 t2, dfs fuel r t1 = Ret t2 -> t1 `prefix_of` t2)
    by (intros r t1 t2 E1; by apply (IH r)).
  split.
  2:{ intros l0 obj0 [= <-] H0. rewrite Hobj in H0. injection H0 as <-.
      apply elem_of_app. right. by left. }
  destruct (decide (name obj = y)) as [Hy|Hy].
  - destruct (Hdep l obj Hobj Hy) as (fields & l' & obj' & -> & Hin & Hobj' & Hx).
    simpl in E. unfold dfs_struct in E.
    assert (extends x y tn t) as [Hp Hq].
    { apply (for_each_extends x y (fun field => dfs fuel (field_type field)) fields);
  [|done]. intros; by eapply Hext. }
    apply list_elem_of_fmap in Hin as (fld & Hfld & Hin).
    destruct (for_each_visits (fun field => dfs fuel (field_type field)) fields
      (fun z t t' _ => Hpre (field_type z) t t') _ _ fld E Hin)
      as (t1 & t2 & E1 & Hp2).
    rewrite <- Hfld in E1. apply IH in E1 as [_ E1].
    specialize (E1 l' obj' eq_refl Hobj'). rewrite Hx in E1.
    split; [by apply prefix_app_r |].
    intros Hpr. simpl. apply preceded_snoc_same; [|by apply Hq].
    by apply (elem_of_prefix t2).
  - assert (extends x y tn t) as [Hp Hq].
    { destruct obj as [n sz|n fields|n et len|n vs pf st|n ps rt|n fs]; simpl in E.
      + injection E as <-. apply extends_refl.
      + apply (for_each_extends x y _ fields) in E; [done |].
  intros; by eapply Hext.
      + by eapply Hext.
      + unfold dfs_enum in E.
  apply obind_Ret_inv in E as (t1 & E1 & E).
  apply obind_Ret_inv in E as (t2 & E2 & E3).
  apply (extends_trans _ _ _ t1).
  { apply (for_each_extends x y _ vs) in E1; [done |]. intros; by eapply Hext. }
  apply (extends_trans _ _ _ (t1 ++ [n])).
  { split; [by apply prefix_app_r |]. by apply preceded_snoc_other. }
  apply (extends_trans _ _ _ t2); by eapply Hext.
      + unfold dfs_function in E.
  apply obind_Ret_inv in E as (t1 & E1 & E2).
  apply (extends_trans _ _ _ t1).
  * apply (for_each_extends x y _ ps) in E1; [done |].
intros p u u' _ Eu. apply dfs_guarded_extends in Eu; [done |].
intros; by eapply Hext.
  * apply dfs_guarded_extends in E2; [done |]. intros; by eapply Hext.
      + destruct fs; [|done]. injection E as <-. apply extends_refl. }
    split; [by apply prefix_app_r |].
    intros Hpr. apply preceded_snoc_other; [done | by apply Hq].
Qed.
End order.

(** ** The deduplication pass *)

Lemma not_in_true n tn : not_in n tn = true <-> n ∉ tn.
Proof. unfold not_in. apply bool_decide_eq_true. Qed.

Lemma not_in_false n tn : not_in n tn = false <-> n ∈ tn.
Proof.
  unfold not_in. rewrite bool_decide_eq_false. split; [|auto].
  intros H. by destruct (decide (n ∈ tn)).
Qed.

Lemma dedupe_app u v acc : dedupe (u ++ v) acc = dedupe v (dedupe u acc).
Proof.
  revert acc. induction u as [|n u IH]; intros acc; simpl; [done |].
  destruct (not_in n acc); apply IH.
Qed.

Lemma dedupe_prefix u : forall acc, acc `prefix_of` dedupe u acc.
Proof.
  induction u as [|n u IH]; intros acc; simpl; [done |].
  destruct (not_in n acc); [|apply IH].
  etrans; [|apply IH]. by apply prefix_app_r.
Qed.

Lemma dedupe_elem z u : forall acc, z ∈ dedupe u acc <-> z ∈ acc \/ z ∈ u.
Proof.
  induction u as [|n u IH]; intros acc; simpl.
  - rewrite elem_of_nil. tauto.
  - destruct (not_in n acc) eqn:Hn; rewrite IH, elem_of_cons.
    + rewrite elem_of_app, list_elem_of_singleton. tauto.
    + apply not_in_false in Hn. split; [tauto |].
      intros [H|[->|H]]; auto.
Qed.

Lemma dedupe_NoDup u : forall acc, NoDup acc -> NoDup (dedupe u acc).
Proof.
  induction u as [|n u IH]; intros acc Hnd; simpl; [done |].
  destruct (not_in n acc) eqn:Hn; [|by apply IH].
  apply IH. apply NoDup_app. split; [done |]. split.
  - intros z Hz ->%list_elem_of_singleton. by apply not_in_true in Hn.
  - apply NoDup_singleton.
Qed.

Lemma dedupe_order tn a b c :
  a ∈ tn -> preceded b a tn -> preceded c b tn ->
  exists l1 l2 l3 l4, dedupe tn [] = l1 ++ c :: l2 ++ b :: l3 ++ a :: l4.
Proof.
  intros Ha Hba Hcb.
  apply list_elem_of_split_l in Ha as (u & v & -> & Hau).
  assert (b ∈ u) as Hb.
  { specialize (Hba (length u) (list_lookup_middle _ _ _ _ eq_refl)).
    by rewrite take_app_length in Hba. }
  apply list_elem_of_split_l in Hb as (u1 & u2 & -> & Hbu).
  assert (c ∈ u1) as Hc.
  { rewrite <- app_assoc in Hcb.
    specialize (Hcb (length u1) (list_lookup_middle _ _ _ _ eq_refl)).
    by rewrite take_app_length in Hcb. }
  rewrite <- app_assoc, dedupe_app. simpl.
  assert (not_in b (dedupe u1 []) = true) as ->.
  { apply not_in_true. rewrite dedupe_elem, elem_of_nil. tauto. }
  rewrite dedupe_app. simpl.
  destruct (dedupe_prefix u2 (dedupe u1 [] ++ [b])) as [k3 E3].
  assert (not_in a (dedupe u2 (dedupe u1 [] ++ [b])) = true) as ->.
  { apply not_in_true. rewrite dedupe_elem, elem_of_app, dedupe_elem, elem_of_nil,
      list_elem_of_singleton.
    intros [[[[]|H]| ->]|H]; apply Hau.
    - apply elem_of_app. by left.
    - apply elem_of_app. right. by left.
    - apply elem_of_app. right. by right. }
  destruct (dedupe_prefix v (dedupe u2 (dedupe u1 [] ++ [b]) ++ [a])) as [k5 E5].
  assert (c ∈ dedupe u1 []) as Hd by (apply dedupe_elem; by right).
  apply list_elem_of_split in Hd as (p & q & Hd).
  exists p, q, k3, k5. rewrite E5, E3, Hd.
  by rewrite <- !app_assoc.
Qed.

(** ** The chain A -> B -> C *)

Lemma unique_depends_on objs l y fields l' obj' :
  unique_names objs ->
  objs !! l = Some (Struct y fields) -> Some l' ∈ field_type <$> fields ->
  objs !! l' = Some obj' ->
  depends_on objs (name obj') y.
Proof.
  intros Hu Hl Hin Hl' l0 obj0 H0 Hn.
  assert (l0 = l) as -> by (by apply (Hu l0 l obj0 (Struct y fields))).
  rewrite Hl in H0. injection H0 as <-.
  by exists fields, l', obj'.
Qed.

(** C2.  In a protocol whose references denote objects, without reference
    cycles reachable from the roots, whose objects have distinct names and
    whose contexts have no fields: if a root PDU type [A] is a struct with a
    field of type [B], [B] is a struct with a field of type [C] and [C] has no
    further dependencies, then the traversal returns a sequence without
    repetition in which the name of [C] comes before the name of [B], which
    comes before the name of [A]. *)
Theorem dfs_protocol_chain_order protocol A B C a b fa fb oc :
  closed protocol -> no_context_fields (objects protocol) ->
  acyclic protocol -> unique_names (objects protocol) ->
  Some A ∈ roots protocol ->
  objects protocol !! A = Some (Struct a fa) -> Some B ∈ field_type <$> fa ->
  objects protocol !! B = Some (Struct b fb) -> Some C ∈ field_type <$> fb ->
  objects protocol !! C = Some oc -> refs oc = [] ->
  exists fuel out l1 l2 l3 l4,
    dfs_protocol fuel protocol = Ret out /\ NoDup out /\
    out = l1 ++ name oc :: l2 ++ b :: l3 ++ a :: l4.
Proof.
  intros Hclosed Hctx Hacyc Hu Hroot HA HBin HB HCin HC _.
  destruct (dfs_protocol_returns protocol Hclosed Hctx Hacyc) as (fuel & out & E).
  pose proof (unique_depends_on _ _ _ _ _ _ Hu HB HCin HC) as Hcb.
  pose proof (unique_depends_on _ _ _ _ _ _ Hu HA HBin HB) as Hba. simpl in Hba.
  pose proof E as E0.
  unfold dfs_protocol in E. apply obind_Ret_inv in E as (tn & E & [= <-]).
  set (body := fun pdu_name =>
         dfs_protocoltype (objects protocol) fuel (get_pdu protocol pdu_name)) in E.
  assert (preceded (name oc) b tn) as Pcb.
  { apply (for_each_extends (name oc) b body (get_pdu_names protocol)) in E.
    - apply E, preceded_nil.
    - intros z t t' _ Ez. by apply (dfs_order _ _ _ Hcb) in Ez as [Ez _]. }
  assert (preceded b a tn) as Pba.
  { apply (for_each_extends b a body (get_pdu_names protocol)) in E.
    - apply E, preceded_nil.
    - intros z t t' _ Ez. by apply (dfs_order _ _ _ Hba) in Ez as [Ez _]. }
  assert (a ∈ tn) as Ha.
  { unfold roots in Hroot. apply list_elem_of_fmap in Hroot as (pdu_name & Hpdu & Hin).
    destruct (for_each_visits body (get_pdu_names protocol)) with
      (tn := @nil string) (tn' := tn) (z := pdu_name) as (t & t' & Et & Hp); try done.
    - intros z u u' _ Ez. by apply (dfs_order _ _ _ Hba) in Ez as [[? _] _].
    - unfold body in Et. rewrite <- Hpdu in Et.
      apply (dfs_order _ _ _ Hba) in Et as [_ Et].
      apply (elem_of_prefix t'); [|done].
      apply (Et A (Struct a fa) eq_refl HA). }
  destruct (dedupe_order tn a b (name oc) Ha Pba Pcb) as (l1 & l2 & l3 & l4 & Eo).
  exists fuel, (dedupe tn []), l1, l2, l3, l4.
  split; [done |]. split; [|done]. apply dedupe_NoDup. constructor.
Qed.

Lemma dfs_protocol_chain_order_witness :
  exists fuel out l1 l2 l3 l4,
    dfs_protocol fuel (single_pdu chain_objs 0) = Ret out /\ NoDup out /\
    out = l1 ++ "C" :: l2 ++ "B" :: l3 ++ "A" :: l4.
Proof.
  apply (dfs_protocol_chain_order (single_pdu chain_objs 0) 0 1 2 "A" "B"
 [fld "b" 1] [fld "c" 2] (BitString "C" (Some 8%Z))).
  - apply single_pdu_closed; by vm_compute.
  - apply context_free_no_fields. by vm_compute.
  - apply (ranked_acyclic _ (fun l => 3 - l)). by vm_compute.
  - apply distinct_names_unique. by vm_compute.
  - by left.
  - by vm_compute.
  - by left.
  - by vm_compute.
  - by left.
  - by vm_compute.
  - reflexivity.
Defined.

End ResolverFacts.


(* ===================================================================== *)
(** * Properties of the type registry                                     *)
(* ===================================================================== *)

Module RegistryFacts.
Import Registry.

(** ** The unit tests of [protocol.py] *)

Example test_define_bitstring :
  let p := sample_bits "Timestamp" 32 init in
  exists l, _types p !! "Timestamp" = Some l /\
    heap p !! l = Some {| kind := "BitString"; name := "Timestamp"; traits := l;
                          methods := l; shape := BitStringShape 32 |} /\
    trait_names l p = Some {["Equality"; "Sized"; "Value"]}.
Proof. exists 3. by vm_compute. Qed.

Example test_define_array :
  let p := (define_array sample_type_name (IRArray "CSRCList" "SSRC" 4)
              (sample_bits "SSRC" 32 init)).2 in
  exists l o, _types p !! "CSRCList" = Some l /\ heap p !! l = Some o /\
    kind o = "Array" /\ shape o = ArrayShape 3 4 (Some 128%Z) /\
    _types p !! "SSRC" = Some 3 /\
    trait_names l p = Some {["Equality"; "IndexCollection"; "Sized"]}.
Proof. exists 4. eexists. by vm_compute. Qed.

Example test_derive_type :
  let p := (derive_type sample_type_name (IRNewType "SeqNum" "Bits16" ["Ordinal"])
              (sample_bits "Bits16" 16 init)).2 in
  exists l o, _types p !! "SeqNum" = Some l /\ heap p !! l = Some o /\
    kind o = "BitString" /\ name o = "SeqNum" /\
    trait_names l p = Some {["Equality"; "Sized"; "Value"; "Ordinal"]}.
Proof. exists 4. eexists. by vm_compute. Qed.

(** ** Certificates *)

Lemma forallb_gmap_to_list {K A} `{Countable K} (m : gmap K A) (P : K * A -> bool) :
  forallb P (map_to_list m) = true -> forall k a, m !! k = Some a -> P (k, a) = true.
Proof.
  intros HP k a Hk. rewrite forallb_forall in HP. apply HP.
  apply list_elem_of_In. by apply elem_of_map_to_list.
Qed.

Lemma wfb_wf p : wfb p = true -> wf p.
Proof.
  unfold wfb. rewrite !andb_true_iff.
  intros [[[[[Ht Hp] Hty] Hh] Htd] Hmd]. split.
  - by apply bool_decide_eq_true in Ht.
  - intros k Hk. rewrite forallb_forall in Hp.
    apply list_elem_of_In, Hp in Hk. by apply bool_decide_eq_true in Hk.
  - intros n l Hn. apply (forallb_gmap_to_list _ _ Hty) in Hn.
    by apply bool_decide_eq_true in Hn.
  - intros l o Hl. apply (forallb_gmap_to_list _ _ Hh) in Hl. simpl in Hl.
    rewrite !andb_true_iff, !bool_decide_eq_true in Hl. tauto.
  - intros l [d Hl]. apply (forallb_gmap_to_list _ _ Htd) in Hl.
    by apply bool_decide_eq_true in Hl.
  - intros l [d Hl]. apply (forallb_gmap_to_list _ _ Hmd) in Hl.
    by apply bool_decide_eq_true in Hl.
Qed.

Lemma wf_init : wf init.
Proof. apply wfb_wf. by vm_compute. Qed.

(** ** Expressions are resolved inside a structure type *)

(** C7.  Whatever the expression record, resolving it with an enclosing type
    whose kind is not ["Struct"] fails with the scope error; resolving [This]
    with an enclosing type [S] of kind ["Struct"] yields an expression whose
    static type is [S] itself. *)
Theorem parse_expression_scope p this o :
  heap p !! this = Some o ->
  (kind o <> "Struct" -> forall expr, _parse_expression expr this p = Err ScopeError) /\
  (kind o = "Struct" ->
   exists e, _parse_expression This this p = Ok e /\ type_of e p = Ok (Some this)).
Proof.
  intros Ho. split.
  - intros Hk expr. apply String.eqb_neq in Hk.
    destruct expr; simpl; unfold deref, lookup_or; rewrite Ho; simpl; by rewrite Hk.
  - intros Hk. exists (ThisExpression this). split; [|done].
    simpl. unfold deref, lookup_or. rewrite Ho. simpl. by rewrite Hk.
Qed.

Lemma parse_expression_scope_witness :
  (forall expr, _parse_expression expr 1 init = Err ScopeError) /\
  (exists e, _parse_expression This 3
               (define_struct sample_type_name sample_func_name
                  (IRStruct "TestStruct" [] [] []) init).2 = Ok e /\
             type_of e (define_struct sample_type_name sample_func_name
                          (IRStruct "TestStruct" [] [] []) init).2 = Ok (Some 3)).
Proof.
  split.
  - eapply (parse_expression_scope init 1); [by vm_compute | by vm_compute].
  - eapply (parse_expression_scope _ 3); [by vm_compute | by vm_compute].
Defined.

(** ** Running a sequence of statements *)

Lemma bind_ok {A B} (m : M A) (k : A -> M B) p a p1 :
  m p = (Ok a, p1) -> bind m k p = k a p1.
Proof. unfold bind. by intros ->. Qed.

Lemma bind_err {A B} (m : M A) (k : A -> M B) p e p1 :
  m p = (Err e, p1) -> bind m k p = (Err e, p1).
Proof. unfold bind. by intros ->. Qed.

Lemma bind_inv {A B} (m : M A) (k : A -> M B) p r p' :
  bind m k p = (r, p') ->
  (exists e, m p = (Err e, p') /\ r = Err e) \/
  (exists a p1, m p = (Ok a, p1) /\ k a p1 = (r, p')).
Proof.
  unfold bind. destruct (m p) as [[a|e] p1]; [eauto |].
  intros [= <- <-]. eauto.
Qed.

Lemma lift_ok {A} (f : R A) p a : f p = Ok a -> lift f p = (Ok a, p).
Proof. unfold lift. by intros ->. Qed.

Lemma lift_err {A} (f : R A) p e : f p = Err e -> lift f p = (Err e, p).
Proof. unfold lift. by intros ->. Qed.

Lemma type_ok n l p : _types p !! n = Some l -> type n p = Ok l.
Proof. unfold type, lookup_or. by intros ->. Qed.

Lemma implement_ok n tn l o t p :
  _types p !! n = Some l -> heap p !! l = Some o -> _traits p !! tn = Some t ->
  implement n tn p = (Ok tt, implemented o t p).
Proof.
  intros Hn Hl Ht. unfold implement.
  rewrite (bind_ok _ _ p l p) by (by apply lift_ok, type_ok).
  rewrite (bind_ok _ _ p t p) by (apply lift_ok; unfold trait, lookup_or; by rewrite Ht).
  unfold implement_trait. by rewrite Hl.
Qed.

Lemma init_traits_named :
  forallb (fun kt => String.eqb (trait_name kt.2) kt.1) (map_to_list (_traits init)) = true.
Proof. by vm_compute. Qed.

Lemma init_traits_builtin :
  forallb (fun k => bool_decide (is_Some (_traits init !! k))) builtin_traits = true.
Proof. by vm_compute. Qed.

Lemma wf_trait_name p k t : wf p -> _traits p !! k = Some t -> trait_name t = k.
Proof.
  intros Hwf Hk. rewrite (wf_traits p Hwf) in Hk.
  apply (forallb_gmap_to_list _ _ init_traits_named) in Hk. by apply String.eqb_eq in Hk.
Qed.

Lemma wf_builtin_trait p k :
  wf p -> k ∈ builtin_traits -> exists t, _traits p !! k = Some t /\ trait_name t = k.
Proof.
  intros Hwf Hk. pose proof init_traits_builtin as H. rewrite forallb_forall in H.
  apply list_elem_of_In, H, bool_decide_eq_true in Hk as [t Ht].
  rewrite <- (wf_traits p Hwf) in Ht. exists t. split; [done |].
  by apply (wf_trait_name p).
Qed.

Lemma validate_ok T o k p :
  construct o = k -> _types p !! ir_name o = None -> T (ir_name o) = true ->
  _validate_irtype T o k p = Ok tt.
Proof.
  intros Hc Hn HT. unfold _validate_irtype.
  rewrite Hc, String.eqb_refl. simpl.
  rewrite bool_decide_eq_false_2 by (rewrite Hn; by intros [? ?]).
  by rewrite HT.
Qed.

(** ** Arrays *)

(** C8.  The array constructor is modelled from the spec.  In a well-formed
    protocol, for a registered element type [E] whose size is defined and a
    positive length [L], the call of [define_array] with a new, well-formed
    name succeeds and registers a type whose size is the size of [E] times [L]
    and whose implemented traits are exactly Sized, Equality and
    IndexCollection, three in number. *)
Theorem define_array_size_traits T p n et L E oe s :
  wf p -> _types p !! n = None -> T n = true ->
  _types p !! et = Some E -> heap p !! E = Some oe -> size_of oe = Some s ->
  (0 < L)%Z ->
  exists p' l o,
    define_array T (IRArray n et L) p = (Ok tt, p') /\
    _types p' !! n = Some l /\ heap p' !! l = Some o /\
    size_of o = Some (s * L)%Z /\
    trait_names l p' = Some {["Sized"; "Equality"; "IndexCollection"]} /\
    (size <$> trait_names l p') = Some 3.
Proof.
  intros Hwf Hn HT Het HE Hs HL.
  destruct (wf_builtin_trait p "Sized" Hwf ltac:(unfold builtin_traits; set_solver)) as (t1 & Ht1 & N1).
  destruct (wf_builtin_trait p "Equality" Hwf ltac:(unfold builtin_traits; set_solver)) as (t2 & Ht2 & N2).
  destruct (wf_builtin_trait p "IndexCollection" Hwf ltac:(unfold builtin_traits; set_solver)) as (t3 & Ht3 & N3).
  set (o := {| kind := "Array"; name := n; traits := next p; methods := next p;
               shape := ArrayShape E L (array_size (size_of oe) L) |}).
  set (p2 := with_type n (next p) (allocated "Array" n (shape o) p)).
  assert (Hn2 : _types p2 !! n = Some (next p)) by apply lookup_insert_eq.
  assert (Hl2 : heap p2 !! next p = Some o) by apply lookup_insert_eq.
  exists (implemented o t3 (implemented o t2 (implemented o t1 p2))), (next p), o.
  split; [|split; [done | split; [done | split; [|]]]].
  - unfold define_array.
    rewrite (bind_ok _ _ p tt p) by (by apply lift_ok, validate_ok).
    rewrite (bind_ok _ _ p E p) by (by apply lift_ok, type_ok).
    rewrite (bind_ok _ _ p tt p2).
    2:{ unfold Array. erewrite (bind_ok _ _ p (next p)); [done |].
        erewrite (bind_ok _ _ p oe p); [done |].
        apply lift_ok. unfold deref, lookup_or. by rewrite HE. }
    rewrite (bind_ok _ _ p2 tt (implemented o t1 p2)) by (by apply (implement_ok _ _ (next p))).
    rewrite (bind_ok _ _ _ tt (implemented o t2 (implemented o t1 p2)))
      by (by apply (implement_ok _ _ (next p))).
    by apply (implement_ok _ _ (next p)).
  - unfold size_of. simpl. rewrite Hs. done.
  - assert (trait_names (next p) (implemented o t3 (implemented o t2 (implemented o t1 p2)))
            = Some {["Sized"; "Equality"; "IndexCollection"]}) as Hnames.
    { unfold trait_names. simpl. fold o. rewrite lookup_insert_eq. simpl.
      rewrite !lookup_alter_eq, lookup_insert_eq. simpl.
      rewrite !dom_insert_L, dom_empty_L, N1, N2, N3. f_equal. all: set_solver. }
    rewrite Hnames. split; [done |]. simpl. by f_equal.
Qed.

Lemma define_array_size_traits_witness :
  exists p' l o,
    define_array sample_type_name (IRArray "CSRCList" "SSRC" 4)
      (sample_bits "SSRC" 32 init) = (Ok tt, p') /\
    _types p' !! "CSRCList" = Some l /\ heap p' !! l = Some o /\
    size_of o = Some (32 * 4)%Z /\
    trait_names l p' = Some {["Sized"; "Equality"; "IndexCollection"]} /\
    (size <$> trait_names l p') = Some 3.
Proof.
  apply (define_array_size_traits sample_type_name (sample_bits "SSRC" 32 init)
           "CSRCList" "SSRC" 4 3
           {| kind := "BitString"; name := "SSRC"; traits := 3; methods := 3;
              shape := BitStringShape 32 |} 32).
  - apply wfb_wf. by vm_compute.
  - by vm_compute.
  - by vm_compute.
  - by vm_compute.
  - by vm_compute.
  - reflexivity.
  - lia.
Defined.

(** ** The order of the checks on a record *)







(** ** What a call keeps *)

Lemma preserves_bind {A B} J (m : M A) (k : A -> M B) :
  preserves J m -> (forall a, preserves J (k a)) -> preserves J (bind m k).
Proof.
  intros Hm Hk p r p' HJ E.
  apply bind_inv in E as [(e & E & _)|(a & p1 & E1 & E2)].
  - by apply (Hm p (Err e) p').
  - apply (Hk a p1 r p'); [|done]. by apply (Hm p (Ok a) p1).
Qed.


Lemma preserves_ret {A} J (a : A) : preserves J (ret a).
Proof. intros p r p' HJ [= _ <-]. done. Qed.

Lemma preserves_raise {A} J e : preserves J (@raise A e).
Proof. intros p r p' HJ [= _ <-]. done. Qed.

Lemma preserves_for_each {A} J (body : A -> M unit) xs :
  (forall x, preserves J (body x)) -> preserves J (for_each body xs).
Proof.
  intros Hb. induction xs as [|x xs IH]; simpl.
  - apply preserves_ret.
  - apply preserves_bind; [apply Hb | intros; apply IH].
Qed.

Section extended.
Variable p0 : Protocol.
Variable n : string.

Lemma extended_type p : extended p0 n p -> type n p = Ok (next p0).
Proof. intros H. apply type_ok. rewrite (ext_types _ _ _ H). apply lookup_insert_eq. Qed.


Lemma preserves_on_type (body : loc -> M unit) :
  (forall p, extended p0 n p -> forall r p', body (next p0) p = (r, p') -> extended p0 n p') ->
  preserves (extended p0 n) (do t <- lift (type n) ; body t).
Proof.
  intros Hb p r p' HJ E. unfold bind, lift in E.
  rewrite (extended_type p HJ) in E. by apply (Hb p HJ r p').
Qed.




Lemma extended_implemented o t p :
  extended p0 n p -> heap p !! next p0 = Some o ->
  extended p0 n (implemented o t p).
Proof.
  intros [H1 H2 H3 H4 (o' & H5 & H6 & H7) H8 H9] Ho.
  rewrite Ho in H5. injection H5 as <-.
  split; simpl; try done.
  - by exists o.
  - intros l Hl. rewrite H6, lookup_alter_ne by done. by apply H8.
  - intros l Hl. rewrite H7, lookup_alter_ne by done. by apply H9.
Qed.

Lemma preserves_implement tn : preserves (extended p0 n) (implement n tn).
Proof.
  unfold implement. apply preserves_on_type. intros p HJ r p' E.
  unfold bind, lift in E. destruct (trait tn p) as [t|e]; [|by injection E as _ <-].
  unfold implement_trait in E.
  destruct (ext_object _ _ _ HJ) as (o & Ho & _). rewrite Ho in E.
  injection E as _ <-. by apply extended_implemented.
Qed.



Lemma extended_copied o td md :
  extended p0 n (with_type n (next p0) (copied o n td md p0)).
Proof.
  split; simpl; try done.
  - intros l Hl. by rewrite lookup_insert_ne.
  - eexists. by rewrite lookup_insert_eq.
  - intros l Hl. by rewrite lookup_insert_ne.
  - intros l Hl. by rewrite lookup_insert_ne.
Qed.
End extended.


(** ** Calls that raise before they register anything *)

Lemma implement_total n tn l o p :
  _traits p = _traits init -> tn ∈ builtin_traits ->
  _types p !! n = Some l -> heap p !! l = Some o ->
  exists p', implement n tn p = (Ok tt, p') /\ _traits p' = _traits init /\
    _types p' !! n = Some l /\ heap p' !! l = Some o.
Proof.
  intros Ht Htn Hn Hl.
  pose proof init_traits_builtin as H. rewrite forallb_forall in H.
  apply list_elem_of_In, H, bool_decide_eq_true in Htn as [t Hlook].
  rewrite <- Ht in Hlook.
  exists (implemented o t p). split; [by apply (implement_ok n tn l) | done].
Qed.

Lemma lift_inv {A} (f : R A) p r p' : lift f p = (r, p') -> p' = p /\ f p = r.
Proof. by intros [= -> ->]. Qed.

Lemma validate_construct T o k p :
  _validate_irtype T o k p = Ok tt ->
  construct o = k /\ _types p !! ir_name o = None.
Proof.
  unfold _validate_irtype. destruct (String.eqb (construct o) k) eqn:Hc; [|done].
  simpl. apply String.eqb_eq in Hc. case_bool_decide as Hn; [done |].
  intros _. split; [done |]. destruct (_types p !! ir_name o); [|done].
  exfalso. apply Hn. eauto.
Qed.





(** ** Calls that raise after they have registered the new type *)










(** ** Structs are registered before they are populated *)

Lemma for_each_nil {A} (body : A -> M unit) p : for_each body [] p = (Ok tt, p).
Proof. done. Qed.

(** C10.  In a well-formed protocol, for a name that passes the validation:
    [define_struct] first registers a new, empty struct under the name, and
    parses the fields, constraints and actions in the protocol so extended, in
    which the lookup of the name returns that struct; a field whose declared
    type is the name of the struct is therefore accepted, and the struct that
    results has a field whose type is the struct itself. *)
Theorem struct_registered_before_parsing T F p n :
  wf p -> _types p !! n = None -> T n = true ->
  exists p1 l o,
    struct_new n p = (Ok tt, p1) /\
    type n p1 = Ok l /\ heap p1 !! l = Some o /\
    kind o = "Struct" /\ name o = n /\ shape o = StructShape [] [] [] /\
    (forall fields constraints actions,
       define_struct T F (IRStruct n fields constraints actions) p =
       (struct_fields F n fields ;;
        struct_constraints n constraints ;;
        struct_actions n actions ;;
        implement n "Sized" ;;
        implement n "Equality") p1) /\
    (forall fn v, F fn = true ->
       exists p' o' fld,
         define_struct T F (IRStruct n [self_field n fn v] [] []) p = (Ok tt, p') /\
         type n p' = Ok l /\ heap p' !! l = Some o' /\
         shape o' = StructShape [fld] [] [] /\
         field_name fld = fn /\ field_type fld = l).
Proof.
  intros Hwf Hn HT.
  set (o := {| kind := "Struct"; name := n; traits := next p; methods := next p;
               shape := StructShape [] [] [] |}).
  set (p1 := with_type n (next p) (allocated "Struct" n (StructShape [] [] []) p)).
  assert (Hn1 : _types p1 !! n = Some (next p)) by apply lookup_insert_eq.
  assert (Hl1 : heap p1 !! next p = Some o) by apply lookup_insert_eq.
  assert (Hdef : forall fields constraints actions,
            define_struct T F (IRStruct n fields constraints actions) p =
            (struct_fields F n fields ;; struct_constraints n constraints ;;
             struct_actions n actions ;; implement n "Sized" ;;
             implement n "Equality") p1).
  { intros. unfold define_struct.
    rewrite (bind_ok _ _ p tt p) by (by apply lift_ok, validate_ok).
    by rewrite (bind_ok _ _ p tt p1). }
  exists p1, (next p), o.
  split; [done |]. split; [by apply type_ok |]. split; [done |].
  split; [done |]. split; [done |]. split; [done |]. split; [done |].
  intros fn v HF. rewrite Hdef.
  destruct (wf_primitives p Hwf "Boolean") as [b Hb]; [set_solver |].
  assert (Hb1 : _types p1 !! "Boolean" = Some b).
  { simpl. rewrite lookup_insert_ne; [done |]. intros ->. congruence. }
  set (fld := {| field_name := fn; field_type := next p;
                 field_is_present := ConstantExpression b v;
                 field_transform := None |}).
  set (p2 := update_obj (next p) (with_shape (append_field fld)) p1).
  assert (Hn2 : _types p2 !! n = Some (next p)) by done.
  assert (Hl2 : heap p2 !! next p = Some (with_shape (append_field fld) o)).
  { simpl. by rewrite lookup_alter_eq, lookup_insert_eq. }
  assert (Hf : struct_fields F n [self_field n fn v] p1 = (Ok tt, p2)).
  { unfold struct_fields.
    rewrite (bind_ok _ _ p1 (next p) p1) by (by apply lift_ok, type_ok).
    rewrite (bind_ok _ _ p1 [fld] p1).
    - simpl. rewrite (bind_ok _ _ p1 tt p2); [done |].
      by rewrite (bind_ok _ _ p1 (next p) p1) by (by apply lift_ok, type_ok).
    - apply lift_ok. unfold _parse_fields. simpl. rewrite HF. simpl.
      rewrite (type_ok n (next p) p1 Hn1). simpl.
      unfold deref, lookup_or. rewrite Hl1. simpl.
      by rewrite (type_ok "Boolean" b p1 Hb1). }
  assert (Hc : struct_constraints n [] p2 = (Ok tt, p2)).
  { unfold struct_constraints.
    by rewrite (bind_ok _ _ p2 (next p) p2) by (by apply lift_ok, type_ok). }
  assert (Ha : struct_actions n [] p2 = (Ok tt, p2)).
  { unfold struct_actions.
    by rewrite (bind_ok _ _ p2 (next p) p2) by (by apply lift_ok, type_ok). }
  destruct (implement_total n "Sized" (next p) _ p2 (wf_traits p Hwf)
              ltac:(unfold builtin_traits; set_solver) Hn2 Hl2)
    as (p3 & E3 & T3 & N3 & H3).
  destruct (implement_total n "Equality" (next p) _ p3 T3
              ltac:(unfold builtin_traits; set_solver) N3 H3)
    as (p4 & E4 & T4 & N4 & H4).
  exists p4, (with_shape (append_field fld) o), fld.
  split.
  - rewrite (bind_ok _ _ p1 tt p2) by done.
    rewrite (bind_ok _ _ p2 tt p2) by done.
    rewrite (bind_ok _ _ p2 tt p2) by done.
    by rewrite (bind_ok _ _ p2 tt p3).
  - split; [by apply type_ok |]. done.
Qed.

Lemma struct_registered_before_parsing_witness :
  exists p1 l o,
    struct_new "Node" init = (Ok tt, p1) /\
    type "Node" p1 = Ok l /\ heap p1 !! l = Some o /\
    kind o = "Struct" /\ name o = "Node" /\ shape o = StructShape [] [] [] /\
    (forall fields constraints actions,
       define_struct sample_type_name sample_func_name
         (IRStruct "Node" fields constraints actions) init =
       (struct_fields sample_func_name "Node" fields ;;
        struct_constraints "Node" constraints ;;
        struct_actions "Node" actions ;;
        implement "Node" "Sized" ;;
        implement "Node" "Equality") p1) /\
    (forall fn v, sample_func_name fn = true ->
       exists p' o' fld,
         define_struct sample_type_name sample_func_name
           (IRStruct "Node" [self_field "Node" fn v] [] []) init = (Ok tt, p') /\
         type "Node" p' = Ok l /\ heap p' !! l = Some o' /\
         shape o' = StructShape [fld] [] [] /\
         field_name fld = fn /\ field_type fld = l).
Proof.
  apply (struct_registered_before_parsing sample_type_name sample_func_name init "Node").
  - apply wf_init.
  - by vm_compute.
  - by vm_compute.
Defined.

Example self_referential_struct :
  let p := (define_struct sample_type_name sample_func_name
              (IRStruct "Node" [self_field "Node" "next" (JString "True")] [] [])
              init).2 in
  exists o fld, heap p !! 3 = Some o /\ _types p !! "Node" = Some 3 /\
    shape o = StructShape [fld] [] [] /\ field_type fld = 3.
Proof. do 2 eexists. by vm_compute. Qed.

(** ** Constraints are Boolean, actions are Nothing *)

Lemma collect_app_err {A B} (f : A -> result B) pre x post ys e :
  collect f pre = Ok ys -> f x = Err e -> collect f (pre ++ x :: post) = Err e.
Proof.
  revert ys. induction pre as [|y pre IH]; intros ys Hpre Hx; simpl in *.
  - by rewrite Hx.
  - destruct (f y) as [b|e']; simpl in *; [|done].
    destruct (collect f pre) as [bs|e'] eqn:E; simpl in *; [|done].
    by rewrite (IH bs eq_refl Hx).
Qed.

(** C6.  For a struct record that passes the validation:
    - when the fields are accepted and, in the protocol that holds the struct
      with its fields, the constraints before [c] are accepted and [c] resolves
      to a static type other than Boolean, [define_struct] raises the
      type-mismatch error;
    - when the fields and the constraints are accepted and, in the protocol
      that holds the struct with its fields and constraints, the actions
      before [a] are accepted and [a] resolves to a static type other than
      Nothing, [define_struct] raises the type-mismatch error. *)
Theorem struct_type_mismatch T F p n fields constraints actions :
  _validate_irtype T (IRStruct n fields constraints actions) "Struct" p = Ok tt ->
  (forall p2 l pre c post cs e t boolean,
     (struct_new n ;; struct_fields F n fields) p = (Ok tt, p2) ->
     type n p2 = Ok l ->
     constraints = pre ++ c :: post ->
     _parse_constraints pre l p2 = Ok cs ->
     _parse_expression c l p2 = Ok e -> type_of e p2 = Ok t ->
     type "Boolean" p2 = Ok boolean -> t <> Some boolean ->
     define_struct T F (IRStruct n fields constraints actions) p
     = (Err TypeMismatch, p2)) /\
  (forall p3 l pre a post acts e t nothing,
     (struct_new n ;; struct_fields F n fields ;;
      struct_constraints n constraints) p = (Ok tt, p3) ->
     type n p3 = Ok l ->
     actions = pre ++ a :: post ->
     _parse_actions pre l p3 = Ok acts ->
     _parse_expression a l p3 = Ok e -> type_of e p3 = Ok t ->
     type "Nothing" p3 = Ok nothing -> t <> Some nothing ->
     define_struct T F (IRStruct n fields constraints actions) p
     = (Err TypeMismatch, p3)).
Proof.
  intros Hv. split.
  - intros p2 l pre c post cs e t b Hrun Hl -> Hpre He Ht Hb Hne.
    apply bind_inv in Hrun as [(? & _ & [=])|([] & p1 & Hnew & Hfields)].
    unfold define_struct.
    rewrite (bind_ok _ _ p tt p) by (by apply lift_ok).
    rewrite (bind_ok _ _ p tt p1) by done.
    rewrite (bind_ok _ _ p1 tt p2) by done.
    apply bind_err. unfold struct_constraints.
    rewrite (bind_ok _ _ p2 l p2) by (by apply lift_ok).
    apply bind_err, lift_err. unfold _parse_constraints in *.
    apply (collect_app_err _ _ _ _ cs); [done |].
    rewrite He. simpl. rewrite Ht. simpl. rewrite Hb. simpl.
    by rewrite bool_decide_eq_true_2.
  - intros p3 l pre a post acts e t nt Hrun Hl -> Hpre He Ht Hn Hne.
    apply bind_inv in Hrun as [(? & _ & [=])|([] & p1 & Hnew & Hrun)].
    apply bind_inv in Hrun as [(? & _ & [=])|([] & p2 & Hfields & Hcons)].
    unfold define_struct.
    rewrite (bind_ok _ _ p tt p) by (by apply lift_ok).
    rewrite (bind_ok _ _ p tt p1) by done.
    rewrite (bind_ok _ _ p1 tt p2) by done.
    rewrite (bind_ok _ _ p2 tt p3) by done.
    apply bind_err. unfold struct_actions.
    rewrite (bind_ok _ _ p3 l p3) by (by apply lift_ok).
    apply bind_err, lift_err. unfold _parse_actions in *.
    apply (collect_app_err _ _ _ _ acts); [done |].
    rewrite He. simpl. rewrite Ht. simpl. rewrite Hn. simpl.
    by rewrite bool_decide_eq_true_2.
Qed.

Lemma struct_type_mismatch_witness :
  (exists p2, define_struct sample_type_name sample_func_name
                (IRStruct "Pkt" [] [This] [const_true]) init
              = (Err TypeMismatch, p2)) /\
  (exists p3, define_struct sample_type_name sample_func_name
                (IRStruct "Pkt" [] [const_true] [const_true]) init
              = (Err TypeMismatch, p3)).
Proof.
  split.
  - eexists.
    eapply (proj1 (struct_type_mismatch sample_type_name sample_func_name init
                     "Pkt" [] [This] [const_true] ltac:(by vm_compute)))
      with (l := 3) (pre := []) (c := This) (post := []) (cs := [])
           (e := ThisExpression 3) (t := Some 3) (boolean := 1).
    + by vm_compute.
    + by vm_compute.
    + reflexivity.
    + reflexivity.
    + by vm_compute.
    + reflexivity.
    + by vm_compute.
    + discriminate.
  - eexists.
    eapply (proj2 (struct_type_mismatch sample_type_name sample_func_name init
                     "Pkt" [] [const_true] [const_true] ltac:(by vm_compute)))
      with (l := 3) (pre := []) (a := const_true) (post := []) (acts := [])
           (e := ConstantExpression 1 (JString "True")) (t := Some 1) (nothing := 0).
    + by vm_compute.
    + by vm_compute.
    + reflexivity.
    + reflexivity.
    + by vm_compute.
    + reflexivity.
    + by vm_compute.
    + discriminate.
Defined.

(** ** Derived types own their trait and method collections *)

Lemma preserves_implement_trait p0 n t :
  preserves (extended p0 n) (implement_trait (next p0) t).
Proof.
  intros p r p' HJ E. unfold implement_trait in E.
  destruct (ext_object _ _ _ HJ) as (o & Ho & _). rewrite Ho in E.
  injection E as _ <-. by apply extended_implemented.
Qed.

Lemma implement_inv p0 n tn q q1 :
  extended p0 n q -> implement n tn q = (Ok tt, q1) ->
  exists t, _traits q !! tn = Some t /\
    trait_dicts q1 !! next p0 = (insert (trait_name t) t) <$> (trait_dicts q !! next p0).
Proof.
  intros HJ E. unfold implement in E.
  rewrite (bind_ok _ _ q (next p0) q) in E by (by apply lift_ok, extended_type).
  apply bind_inv in E as [(? & _ & [=])|(t & q' & Ht & E)].
  apply lift_inv in Ht as [-> Ht].
  unfold trait, lookup_or in Ht. destruct (_traits q !! tn) as [t'|] eqn:Hl; [|done].
  injection Ht as ->. exists t. split; [done |].
  unfold implement_trait in E.
  destruct (ext_object _ _ _ HJ) as (o & Ho & Htr & _). rewrite Ho in E.
  injection E as <-. simpl. rewrite Htr. by rewrite lookup_alter_eq.
Qed.

Lemma implements_dom p0 n impls : forall q q1 d,
  _traits p0 = _traits init ->
  extended p0 n q -> trait_dicts q !! next p0 = Some d ->
  for_each (fun impl => implement n impl) impls q = (Ok tt, q1) ->
  exists d1, trait_dicts q1 !! next p0 = Some d1 /\
    dom d1 = dom d ∪ list_to_set impls.
Proof.
  induction impls as [|impl impls IH]; intros q q1 d Hinit HJ Hd E; simpl in E.
  - injection E as <-. exists d. split; [done | set_solver].
  - apply bind_inv in E as [(? & _ & [=])|([] & q' & E1 & E2)].
    destruct (implement_inv p0 n impl q q' HJ E1) as (t & Ht & Hd').
    rewrite Hd in Hd'. simpl in Hd'.
    assert (trait_name t = impl) as Hname.
    { rewrite (ext_traits _ _ _ HJ), Hinit in Ht.
      apply (forallb_gmap_to_list _ _ init_traits_named) in Ht.
      by apply String.eqb_eq in Ht. }
    destruct (IH q' q1 _ Hinit (preserves_implement p0 n impl q (Ok tt) q' HJ E1) Hd' E2)
      as (d1 & Hd1 & Hdom).
    exists d1. split; [done |]. rewrite Hdom, dom_insert_L, Hname. set_solver.
Qed.

(** C5.  The behaviour of [implement_trait] is modelled from the spec.  In a
    well-formed protocol, after a successful call of [derive_type] that
    derives [D] from a registered type [B] with the extra traits [impls]: the
    traits of [D] are those of [B] united with [impls]; [D] is another object
    than [B]; and however many traits are then implemented on [D], the object
    [B], its trait set and its method table stay as they were before the
    derivation. *)
Theorem derived_type_independent T p n base impls B p1 :
  wf p -> _types p !! base = Some B ->
  derive_type T (IRNewType n base impls) p = (Ok tt, p1) ->
  exists D tb,
    _types p1 !! n = Some D /\ D <> B /\
    trait_names B p = Some tb /\
    trait_names D p1 = Some (tb ∪ list_to_set impls) /\
    (forall ts p2,
       for_each (implement_trait D) ts p1 = (Ok tt, p2) ->
       heap p2 !! B = heap p !! B /\
       trait_table B p2 = trait_table B p /\
       method_table B p2 = method_table B p).
Proof.
  intros Hwf HB E. unfold derive_type in E.
  apply bind_inv in E as [(? & _ & [=])|([] & p0 & Hv & E)].
  apply lift_inv in Hv as [-> Hv].
  destruct (validate_construct _ _ _ _ Hv) as [_ Hn]. simpl in Hn.
  rewrite (bind_ok _ _ p B p) in E by (by apply lift_ok, type_ok).
  destruct (wf_types p Hwf base B HB) as [ob Hob].
  destruct (wf_heap p Hwf B ob Hob) as (HBlt & Htlt & Hmlt & [td Htd] & [md Hmd]).
  set (q := with_type n (next p) (copied ob n td md p)) in *.
  rewrite (bind_ok _ _ p tt q) in E.
  2:{ erewrite (bind_ok _ _ p (next p)); [done |].
      unfold copy_type. by rewrite Hob, Htd, Hmd. }
  assert (extended p n q) as Hq by apply extended_copied.
  assert (extended p n p1) as H1.
  { eapply (preserves_for_each (extended p n)); [| exact Hq | exact E].
    intros impl. apply preserves_implement. }
  destruct (implements_dom p n impls q p1 td (wf_traits p Hwf) Hq
              ltac:(apply lookup_insert_eq) E) as (d1 & Hd1 & Hdom).
  exists (next p), (dom td).
  split; [by rewrite (ext_types _ _ _ H1), lookup_insert_eq |].
  split; [lia |].
  split; [unfold trait_names; by rewrite Hob, Htd |].
  split.
  { unfold trait_names. destruct (ext_object _ _ _ H1) as (o1 & Ho1 & Ht1 & _).
    rewrite Ho1, Ht1, Hd1. simpl. by rewrite Hdom. }
  intros ts p2 E2.
  assert (extended p n p2) as H2.
  { eapply (preserves_for_each (extended p n)); [| exact H1 | exact E2].
    intros t. apply preserves_implement_trait. }
  assert (heap p2 !! B = heap p !! B) as HhB
    by (apply (ext_heap _ _ _ H2); lia).
  split; [done |].
  unfold trait_table, method_table. rewrite HhB, Hob.
  split; [apply (ext_trait_dicts _ _ _ H2) | apply (ext_method_dicts _ _ _ H2)]; lia.
Qed.

Lemma derived_type_independent_witness :
  let p := sample_bits "Bits16" 16 init in
  let p1 := (derive_type sample_type_name (IRNewType "SeqNum" "Bits16" ["Ordinal"]) p).2 in
  exists D tb,
    _types p1 !! "SeqNum" = Some D /\ D <> 3 /\
    trait_names 3 p = Some tb /\
    trait_names D p1 = Some (tb ∪ list_to_set ["Ordinal"]) /\
    (forall ts p2,
       for_each (implement_trait D) ts p1 = (Ok tt, p2) ->
       heap p2 !! 3 = heap p !! 3 /\
       trait_table 3 p2 = trait_table 3 p /\
       method_table 3 p2 = method_table 3 p).
Proof.
  apply (derived_type_independent sample_type_name (sample_bits "Bits16" 16 init)
           "SeqNum" "Bits16" ["Ordinal"] 3).
  - apply wfb_wf. by vm_compute.
  - by vm_compute.
  - by vm_compute.
Defined.

Example derived_type_grows_alone :
  let p := sample_bits "Bits16" 16 init in
  let p1 := (derive_type sample_type_name (IRNewType "SeqNum" "Bits16" []) p).2 in
  let p2 := (implement "SeqNum" "ArithmeticOps" p1).2 in
  trait_names 4 p2 = Some {["Sized"; "Value"; "Equality"; "ArithmeticOps"]} /\
  trait_names 3 p2 = Some {["Sized"; "Value"; "Equality"]} /\
  (dom <$> method_table 3 p2) = Some {["size"; "get"; "set"; "eq"; "ne"]}.
Proof. by vm_compute. Qed.

End RegistryFacts.

(* ===================================================================== *)
(** * Further properties of the dependency resolver                       *)
(* ===================================================================== *)

Module ResolverMore.
Import Resolver ResolverFacts.

Example dfs_diamond :
  dfs_protocol 3 (single_pdu diamond_objs 0) = Ret ["Leaf"; "Left"; "Right"; "Top"].
Proof. by vm_compute. Qed.

(** ** The output has no repetition *)

(** Whatever the protocol, a sequence returned by [dfs_protocol] holds no name
    twice. *)
Theorem dfs_protocol_NoDup protocol fuel out :
  dfs_protocol fuel protocol = Ret out -> NoDup out.
Proof.
  intros E. unfold dfs_protocol in E.
  apply obind_Ret_inv in E as (tn & _ & [= <-]).
  apply dedupe_NoDup. constructor.
Qed.

Lemma dfs_protocol_NoDup_witness : NoDup ["Leaf"; "Left"; "Right"; "Top"].
Proof. apply (dfs_protocol_NoDup (single_pdu diamond_objs 0) 3). by vm_compute. Defined.

(** ** Every name of the output is the name of a reachable object *)

Lemma appended_refl objs P tn : appended objs P tn tn.
Proof. split; [done | auto]. Qed.

Lemma appended_trans objs P t1 t2 t3 :
  appended objs P t1 t2 -> appended objs P t2 t3 -> appended objs P t1 t3.
Proof.
  intros [P1 H1] [P2 H2]. split; [by etrans |].
  intros n Hn. destruct (H2 n Hn) as [Hn2|?]; [by apply H1 | by right].
Qed.

Lemma appended_weaken objs (P Q : loc -> Prop) t1 t2 :
  (forall l, P l -> Q l) -> appended objs P t1 t2 -> appended objs Q t1 t2.
Proof.
  intros HPQ [P1 H1]. split; [done |].
  intros n Hn. destruct (H1 n Hn) as [?|(l & obj & HP & Hl & Hname)]; [by left |].
  right. exists l, obj. auto.
Qed.

Lemma appended_snoc objs (P : loc -> Prop) tn l obj :
  P l -> objs !! l = Some obj -> appended objs P tn (tn ++ [name obj]).
Proof.
  intros HP Hl. split; [by apply prefix_app_r |].
  intros n [Hn|Hn]%elem_of_app; [by left |].
  apply list_elem_of_singleton in Hn as ->. right. by exists l, obj.
Qed.

Lemma for_each_appended {A} objs P
    (body : A -> list string -> outcome (list string)) xs :
  (forall z t t', z ∈ xs -> body z t = Ret t' -> appended objs P t t') ->
  forall tn tn', for_each body xs tn = Ret tn' -> appended objs P tn tn'.
Proof.
  induction xs as [|z xs IH]; intros Hb tn tn' E; simpl in E.
  - injection E as <-. apply appended_refl.
  - apply obind_Ret_inv in E as (t & E1 & E2).
    apply (appended_trans _ _ _ t).
    + apply (Hb z); [by left | done].
    + apply IH; [|done]. intros z' t1 t2 Hz. apply Hb. by right.
Qed.

Lemma dfs_sound objs fuel : forall pt tn tn',
  dfs_protocoltype objs fuel pt tn = Ret tn' ->
  appended objs (fun l' => exists l, pt = Some l /\ rtc (edge objs) l l') tn tn'.
Proof.
  induction fuel as [|fuel IH]; intros pt tn tn' E; [done |].
  destruct pt as [l|]; [|injection E as <-; apply appended_refl].
  rewrite dfs_protocoltype_unfold in E.
  destruct (objs !! l) as [obj|] eqn:Hobj; [|done].
  apply obind_Ret_inv in E as (t & E & [= <-]).
  set (P := fun l' => exists l0, Some l = Some l0 /\ rtc (edge objs) l0 l').
  assert (Hchild : forall r t1 t2, r ∈ refs obj ->
            dfs_protocoltype objs fuel r t1 = Ret t2 -> appended objs P t1 t2).
  { intros r t1 t2 Hr E1. apply IH in E1.
    eapply appended_weaken; [|exact E1].
    intros l' (l1 & -> & Hrtc). exists l. split; [done |].
    eapply rtc_l; [|exact Hrtc]. by exists obj. }
  apply (appended_trans _ _ _ t).
  2:{ apply (appended_snoc objs P t l obj); [by exists l | done]. }
  destruct obj as [n sz|n fields|n et len|n vs pf st|n ps rt|n fs]; simpl in E.
  - injection E as <-. apply appended_refl.
  - apply (for_each_appended objs P _ fields) in E; [done |].
    intros z t1 t2 Hz. apply Hchild. simpl. by apply list_elem_of_fmap_2.
  - apply Hchild in E; [done | by left].
  - unfold dfs_enum in E.
    apply obind_Ret_inv in E as (t1 & E1 & E).
    apply obind_Ret_inv in E as (t2 & E2 & E3).
    apply (appended_trans _ _ _ t1).
    { apply (for_each_appended objs P _ vs) in E1; [done |].
      intros z u u' Hz. apply Hchild. simpl. apply elem_of_app. by left. }
    apply (appended_trans _ _ _ (t1 ++ [n])).
    { apply (appended_snoc objs P t1 l (Enum n vs pf st)); [by exists l | done]. }
    apply (appended_trans _ _ _ t2).
    + apply Hchild in E2; [done |]. simpl. apply elem_of_app. right. by left.
    + apply Hchild in E3; [done |]. simpl. apply elem_of_app. right. right. by left.
  - unfold dfs_function in E.
    apply obind_Ret_inv in E as (t1 & E1 & E2).
    assert (Hg : forall l1 u u', Some l1 ∈ refs (Function n ps rt) ->
              dfs_guarded objs (dfs_protocoltype objs fuel) l1 u = Ret u' ->
              appended objs P u u').
    { intros l1 u u' Hin Eg. unfold dfs_guarded in Eg.
      apply obind_Ret_inv in Eg as (nm & _ & Eg).
      destruct (not_in nm u); [by apply Hchild in Eg |].
      injection Eg as <-. apply appended_refl. }
    apply (appended_trans _ _ _ t1).
    + apply (for_each_appended objs P _ ps) in E1; [done |].
      intros p u u' Hp. apply Hg. simpl. apply elem_of_app. left.
      by apply (list_elem_of_fmap_2 (fun p => Some (param_type p))).
    + apply Hg in E2; [done |]. simpl. apply elem_of_app. right. by left.
  - destruct fs; [|done]. injection E as <-. apply appended_refl.
Qed.

(** Every name in a sequence returned by [dfs_protocol] is the name of an
    object that a PDU root reaches through references. *)
Theorem dfs_protocol_sound protocol fuel out n :
  dfs_protocol fuel protocol = Ret out -> n ∈ out ->
  exists l obj, reachable protocol l /\ objects protocol !! l = Some obj /\ name obj = n.
Proof.
  intros E Hn. unfold dfs_protocol in E.
  apply obind_Ret_inv in E as (tn & E & [= <-]).
  apply dedupe_elem in Hn as [Hn|Hn]; [by apply not_elem_of_nil in Hn |].
  apply (for_each_appended (objects protocol) (reachable protocol)) in E.
  - destruct E as [_ E]. destruct (E n Hn) as [Hnil|?]; [|done].
    by apply not_elem_of_nil in Hnil.
  - intros pdu_name t t' Hin Ed. apply dfs_sound in Ed.
    eapply appended_weaken; [|exact Ed].
    intros l' (l & Hl & Hrtc). exists l. split; [|done].
    unfold roots. rewrite <- Hl. by apply list_elem_of_fmap_2.
Qed.

Lemma dfs_protocol_sound_witness :
  exists l obj, reachable (single_pdu diamond_objs 0) l /\
    diamond_objs !! l = Some obj /\ name obj = "Leaf".
Proof.
  apply (dfs_protocol_sound (single_pdu diamond_objs 0) 3
           ["Leaf"; "Left"; "Right"; "Top"] "Leaf").
  - by vm_compute.
  - by left.
Defined.

(** ** Every reachable object is named in the output *)

Lemma settled_refl objs tn : settled objs tn tn.
Proof. split; [done | auto]. Qed.

Lemma settled_trans objs t1 t2 t3 :
  settled objs t1 t2 -> settled objs t2 t3 -> settled objs t1 t3.
Proof.
  intros [P1 H1] [P2 H2]. split; [by etrans |].
  intros l obj Hl Hn. destruct (H2 l obj Hl Hn) as [Hn2|Hc]; [|by right].
  destruct (H1 l obj Hl Hn2) as [?|Hc]; [by left |]. right.
  intros l' Hl'. destruct (Hc l' Hl') as (obj' & Ho' & Hin).
  exists obj'. split; [done |]. by apply (elem_of_prefix t2).
Qed.

(** The name [n] is appended after [t1]; the objects named [n] are accounted
    for separately. *)
Lemma settled_hole objs tn t1 n t2 :
  settled objs tn t1 -> settled objs (t1 ++ [n]) t2 ->
  (forall l obj, objs !! l = Some obj -> name obj = n ->
     name obj ∈ tn \/
     forall l', Some l' ∈ refs obj -> exists obj', objs !! l' = Some obj' /\ name obj' ∈ t2) ->
  settled objs tn t2.
Proof.
  intros [P1 H1] [P2 H2] Hn. split.
  { etrans; [exact P1 |]. etrans; [|exact P2]. by apply prefix_app_r. }
  intros l obj Hl Hin. destruct (H2 l obj Hl Hin) as [Hin2|Hc]; [|by right].
  apply elem_of_app in Hin2 as [Hin1|Heq].
  - destruct (H1 l obj Hl Hin1) as [?|Hc]; [by left |]. right.
    intros l' Hl'. destruct (Hc l' Hl') as (obj' & Ho' & Hi).
    exists obj'. split; [done |].
    apply (elem_of_prefix (t1 ++ [n])); [|done]. apply elem_of_app. by left.
  - apply list_elem_of_singleton in Heq. by apply (Hn l obj).
Qed.

Lemma for_each_settled {A} objs
    (body : A -> list string -> outcome (list string)) xs :
  (forall z t t', z ∈ xs -> body z t = Ret t' -> settled objs t t') ->
  forall tn tn', for_each body xs tn = Ret tn' -> settled objs tn tn'.
Proof.
  induction xs as [|z xs IH]; intros Hb tn tn' E; simpl in E.
  - injection E as <-. apply settled_refl.
  - apply obind_Ret_inv in E as (t & E1 & E2).
    apply (settled_trans _ _ t).
    + apply (Hb z); [by left | done].
    + apply IH; [|done]. intros z' t1 t2 Hz. apply Hb. by right.
Qed.

Section complete.
Variable objs : gmap loc ProtocolType.
Hypothesis Hunique : unique_names objs.

Local Abbreviation dfs := (dfs_protocoltype objs).

Local Abbreviation named_in := (Resolver.named_in objs).

Lemma named_in_prefix r t t' : t `prefix_of` t' -> named_in r t -> named_in r t'.
Proof.
  intros Hp H l Hl. destruct (H l Hl) as (obj & Ho & Hi).
  exists obj. split; [done |]. by apply (elem_of_prefix t).
Qed.

Lemma for_each_named {A} (g : A -> option loc)
    (body : A -> list string -> outcome (list string)) xs :
  (forall z t t', z ∈ xs -> body z t = Ret t' ->
     t `prefix_of` t' /\ named_in (g z) t') ->
  forall tn tn' z, for_each body xs tn = Ret tn' -> z ∈ xs -> named_in (g z) tn'.
Proof.
  intros Hb tn tn' z E Hz.
  destruct (for_each_visits body xs) with (tn := tn) (tn' := tn') (z := z)
    as (t & t' & Et & Hp); [|done|done|].
  - intros z' u u' Hz' Eu. by apply (Hb z').
  - apply (named_in_prefix _ t'); [done |]. by apply (Hb z t t').
Qed.

Lemma dfs_complete fuel : forall pt tn tn',
  dfs fuel pt tn = Ret tn' -> settled objs tn tn' /\ named_in pt tn'.
Proof.
  induction fuel as [|fuel IH]; intros pt tn tn' E; [done |].
  destruct pt as [l|]; [|injection E as <-; split; [apply settled_refl | done]].
  rewrite dfs_protocoltype_unfold in E.
  destruct (objs !! l) as [obj|] eqn:Hobj; [|done].
  apply obind_Ret_inv in E as (t & E & [= <-]).
  assert (Hpre : forall r t1 t2, dfs fuel r t1 = Ret t2 -> t1 `prefix_of` t2)
    by (intros r t1 t2 E1; by apply IH in E1 as [[? _] _]).
  assert (Hg : forall l1 u u',
            dfs_guarded objs (dfs fuel) l1 u = Ret u' ->
            settled objs u u' /\ named_in (Some l1) u').
  { intros l1 u u' Eg. unfold dfs_guarded, name_of in Eg.
    destruct (objs !! l1) as [o1|] eqn:Ho1; [|done]. simpl in Eg.
    destruct (not_in (name o1) u) eqn:Hni; [by apply IH in Eg |].
    injection Eg as <-. split; [apply settled_refl |].
    intros l2 [= <-]. exists o1. split; [done |]. by apply not_in_false. }
  assert (settled objs tn t /\
          forall l', Some l' ∈ refs obj -> named_in (Some l') (t ++ [name obj]))
    as [Hs Hc].
  { destruct obj as [n sz|n fields|n et len|n vs pf st|n ps rt|n fs]; simpl in E |- *.
    - injection E as <-. split; [apply settled_refl |].
      intros l' Hl'. by apply not_elem_of_nil in Hl'.
    - split.
      + apply (for_each_settled objs (fun field => dfs fuel (field_type field)) fields) in E; [done |].
        intros z t1 t2 _ Ez. by apply IH in Ez as [Ez _].
      + intros l' Hl'. apply list_elem_of_fmap in Hl' as (fd & Hfd & Hin).
        apply (named_in_prefix _ t); [by apply prefix_app_r |]. rewrite Hfd.
        apply (for_each_named field_type (fun field => dfs fuel (field_type field)) fields)
          with (tn := tn) (z := fd); try done.
        intros z t1 t2 _ Ez. apply IH in Ez as [[? _] ?]. done.
    - split; [by apply IH in E as [E _] |].
      intros l' Hl'. apply list_elem_of_singleton in Hl' as <-.
      apply (named_in_prefix _ t); [by apply prefix_app_r |]. by apply IH in E as [_ E].
    - unfold dfs_enum in E.
      apply obind_Ret_inv in E as (t1 & E1 & E).
      apply obind_Ret_inv in E as (t2 & E2 & E3).
      assert (Hkids : forall l', Some l' ∈ vs ++ [pf; st] -> named_in (Some l') t).
      { intros l' [Hl'|Hl']%elem_of_app.
        - apply (named_in_prefix _ t1).
          { etrans; [|by eapply Hpre]. etrans; [|by eapply Hpre]. by apply prefix_app_r. }
          apply (for_each_named id (dfs fuel) vs) with (tn := tn) (z := Some l'); try done.
          intros z u u' _ Ez. apply IH in Ez as [[? _] ?]. done.
        - apply elem_of_cons in Hl' as [<-|Hl'].
          + apply (named_in_prefix _ t2); [by eapply Hpre |]. by apply IH in E2 as [_ E2].
          + apply list_elem_of_singleton in Hl' as <-. by apply IH in E3 as [_ E3]. }
      split.
      + apply (settled_hole objs tn t1 n t).
        * apply (for_each_settled objs _ vs) in E1; [done |].
          intros z u u' _ Ez. by apply IH in Ez as [Ez _].
        * apply (settled_trans _ _ t2); [by apply IH in E2 as [E2 _] | by apply IH in E3 as [E3 _]].
        * intros l0 obj0 Hl0 Hn0. right.
          assert (l0 = l) as -> by (by apply (Hunique l0 l obj0 (Enum n vs pf st))).
          rewrite Hobj in Hl0. injection Hl0 as <-. simpl.
          intros l' Hl'. by apply (Hkids l' Hl' l').
      + intros l' Hl'. apply (named_in_prefix _ t); [by apply prefix_app_r |].
        by apply Hkids.
    - unfold dfs_function in E.
      apply obind_Ret_inv in E as (t1 & E1 & E2).
      split.
      + apply (settled_trans _ _ t1); [|by apply Hg in E2 as [E2 _]].
        apply (for_each_settled objs _ ps) in E1; [done |].
        intros z u u' _ Ez. by apply Hg in Ez as [Ez _].
      + intros l' [Hl'|Hl']%elem_of_app.
        * apply list_elem_of_fmap in Hl' as (q & Hq & Hin).
          apply (named_in_prefix _ t1).
          { etrans; [|by apply prefix_app_r]. by apply Hg in E2 as [[? _] _]. }
          rewrite Hq.
          apply (for_each_named (fun q => Some (param_type q))
                   (fun parameter => dfs_guarded objs (dfs fuel) (param_type parameter)) ps)
            with (tn := tn) (z := q); try done.
          intros z u u' _ Ez. apply Hg in Ez as [[? _] ?]. done.
        * apply list_elem_of_singleton in Hl' as [= ->].
          apply (named_in_prefix _ t); [by apply prefix_app_r |]. by apply Hg in E2 as [_ E2].
    - destruct fs; [|done]. injection E as <-. split; [apply settled_refl |].
      intros l' Hl'. by apply not_elem_of_nil in Hl'. }
  split.
  - apply (settled_hole objs tn t (name obj) (t ++ [name obj]));
      [done | apply settled_refl |].
    intros l0 obj0 Hl0 Hn0. right.
    assert (l0 = l) as -> by (by apply (Hunique l0 l obj0 obj)).
    rewrite Hobj in Hl0. injection Hl0 as <-.
    intros l' Hl'. by apply (Hc l' Hl' l').
  - intros l0 [= <-]. exists obj. split; [done |]. apply elem_of_app. right. by left.
Qed.
End complete.

(** When the objects have distinct names, a sequence returned by
    [dfs_protocol] holds the name of every object that a PDU root reaches
    through references. *)
Theorem dfs_protocol_complete protocol fuel out l obj :
  unique_names (objects protocol) ->
  dfs_protocol fuel protocol = Ret out ->
  reachable protocol l -> objects protocol !! l = Some obj ->
  name obj ∈ out.
Proof.
  intros Hu E (l0 & Hroot & Hrtc) Hl. unfold dfs_protocol in E.
  apply obind_Ret_inv in E as (tn & E & [= <-]).
  apply dedupe_elem. right.
  set (body := fun pdu_name =>
         dfs_protocoltype (objects protocol) fuel (get_pdu protocol pdu_name)) in E.
  assert (settled (objects protocol) [] tn) as [_ Hs].
  { apply (for_each_settled _ body (get_pdu_names protocol)); [|done].
    intros z t t' _ Ez. by apply (dfs_complete _ Hu) in Ez as [Ez _]. }
  assert (named_in (objects protocol) (Some l0) tn) as Hn0.
  { unfold roots in Hroot. apply list_elem_of_fmap in Hroot as (pdu & Hpdu & Hin).
    rewrite Hpdu.
    apply (for_each_named (objects protocol) (get_pdu protocol) body
             (get_pdu_names protocol)) with (tn := @nil string) (z := pdu); try done.
    intros z t t' _ Ez. apply (dfs_complete _ Hu) in Ez as [[? _] ?]. done. }
  assert (forall a b, rtc (edge (objects protocol)) a b ->
            named_in (objects protocol) (Some a) tn ->
            named_in (objects protocol) (Some b) tn) as Hstep.
  { induction 1 as [a|a b c (pt & Hpt & Hin) _ IH]; [done |].
    intros Ha. apply IH. destruct (Ha a eq_refl) as (oa & Hoa & Hna).
    rewrite Hpt in Hoa. injection Hoa as <-.
    destruct (Hs a pt Hpt Hna) as [Hnil|Hc]; [by apply not_elem_of_nil in Hnil |].
    intros b' [= <-]. by apply Hc. }
  destruct (Hstep l0 l Hrtc Hn0 l eq_refl) as (obj' & Hobj' & Hin).
  rewrite Hl in Hobj'. by injection Hobj' as <-.
Qed.

Lemma dfs_protocol_complete_witness : "Leaf" ∈ ["Leaf"; "Left"; "Right"; "Top"].
Proof.
  apply (dfs_protocol_complete (single_pdu diamond_objs 0) 3
           ["Leaf"; "Left"; "Right"; "Top"] 3 (BitString "Leaf" (Some 8%Z))).
  - apply distinct_names_unique. by vm_compute.
  - by vm_compute.
  - exists 0. split; [by left |].
    apply (rtc_l _ 0 1); [|apply rtc_once].
    + exists (struct_of "Top" [1; 2]). split; [done | by left].
    + exists (struct_of "Left" [3]). split; [done | by left].
  - done.
Defined.

(** ** What an object depends on comes first *)

Section order_early.
Variable objs : gmap loc ProtocolType.
Variables x y : string.
Hypothesis Hdep : depends_early objs x y.

Local Abbreviation dfs := (dfs_protocoltype objs).

Lemma dfs_order_early fuel : forall pt tn tn',
  dfs fuel pt tn = Ret tn' -> extends x y tn tn' /\ named_in objs pt tn'.
Proof.
  induction fuel as [|fuel IH]; intros pt tn tn' E; [done |].
  destruct pt as [l|]; [|injection E as <-; split; [apply extends_refl | done]].
  rewrite dfs_protocoltype_unfold in E.
  destruct (objs !! l) as [obj|] eqn:Hobj; [|done].
  apply obind_Ret_inv in E as (t & E & [= <-]).
  assert (Hext : forall r t1 t2, dfs fuel r t1 = Ret t2 -> extends x y t1 t2)
    by (intros r t1 t2 E1; by apply (IH r) in E1 as [E1 _]).
  assert (Hpre : forall r t1 t2, dfs fuel r t1 = Ret t2 -> t1 `prefix_of` t2)
    by (intros r t1 t2 E1; by apply (IH r) in E1 as [[E1 _] _]).
  assert (Hnamed : forall l1 o1 t1 t2, objs !! l1 = Some o1 ->
            dfs fuel (Some l1) t1 = Ret t2 -> name o1 ∈ t2).
  { intros l1 o1 t1 t2 Ho1 E1. apply IH in E1 as [_ E1].
    destruct (E1 l1 eq_refl) as (o & Ho & Hin). congruence. }
  split.
  2:{ intros l0 [= <-]. exists obj. split; [done |]. apply elem_of_app. right. by left. }
  assert (Hbody : extends x y tn t /\ (name obj = y -> x ∈ t)).
  { destruct obj as [n sz|n fields|n et len|n vs pf st|n ps rt|n fs]; simpl in E.
    - injection E as <-. split; [apply extends_refl |]. intros Hy.
      destruct (Hdep l _ Hobj Hy) as (l' & obj' & Hin & _). by apply not_elem_of_nil in Hin.
    - split.
      + apply (for_each_extends x y (fun field => dfs fuel (field_type field)) fields) in E;
          [done |]. intros; by eapply Hext.
      + intros Hy. destruct (Hdep l _ Hobj Hy) as (l' & obj' & Hin & Hobj' & Hx).
        simpl in Hin. apply list_elem_of_fmap in Hin as (fd & Hfd & Hin).
        destruct (for_each_visits (fun field => dfs fuel (field_type field)) fields
                    (fun z u u' _ => Hpre (field_type z) u u') _ _ fd E Hin)
          as (t1 & t2 & E1 & Hp2).
        rewrite <- Hfd in E1. apply (elem_of_prefix t2); [|done].
        rewrite <- Hx. by apply (Hnamed l' obj' t1).
    - split; [by eapply Hext |]. intros Hy.
      destruct (Hdep l _ Hobj Hy) as (l' & obj' & Hin & Hobj' & Hx).
      simpl in Hin. apply list_elem_of_singleton in Hin as <-.
      rewrite <- Hx. by apply (Hnamed l' obj' tn).
    - unfold dfs_enum in E.
      apply obind_Ret_inv in E as (t1 & E1 & E).
      apply obind_Ret_inv in E as (t2 & E2 & E3).
      assert (extends x y tn t1) as Hv.
      { apply (for_each_extends x y (dfs fuel) vs) in E1; [done |]. intros; by eapply Hext. }
      assert (n = y -> x ∈ t1) as Hx1.
      { intros Hy. destruct (Hdep l _ Hobj Hy) as (l' & obj' & Hin & Hobj' & Hx).
        simpl in Hin.
        destruct (for_each_visits (dfs fuel) vs (fun z u u' _ => Hpre z u u')
                    _ _ (Some l') E1 Hin) as (u1 & u2 & Eu & Hp2).
        apply (elem_of_prefix u2); [|done]. rewrite <- Hx. by apply (Hnamed l' obj' u1). }
      split.
      + apply (extends_trans _ _ _ t1); [done |].
        apply (extends_trans _ _ _ (t1 ++ [n])).
        { split; [by apply prefix_app_r |]. intros Hpr.
          destruct (decide (n = y)) as [->|Hny].
          - apply preceded_snoc_same; [by apply Hx1 | done].
          - by apply preceded_snoc_other. }
        apply (extends_trans _ _ _ t2); by eapply Hext.
      + intros Hy. apply (elem_of_prefix t1); [by apply Hx1 |].
        etrans; [|by eapply Hpre]. etrans; [|by eapply Hpre]. by apply prefix_app_r.
    - unfold dfs_function in E.
      apply obind_Ret_inv in E as (t1 & E1 & E2).
      split.
      + apply (extends_trans _ _ _ t1).
        * apply (for_each_extends x y
                   (fun parameter => dfs_guarded objs (dfs fuel) (param_type parameter)) ps)
            in E1; [done |].
          intros q u u' _ Eu. apply (dfs_guarded_extends objs x y) in Eu; [done |].
          intros; by eapply Hext.
        * apply (dfs_guarded_extends objs x y) in E2; [done |]. intros; by eapply Hext.
      + intros Hy. destruct (Hdep l _ Hobj Hy) as (l' & obj' & Hin & _).
        by apply not_elem_of_nil in Hin.
    - destruct fs; [|done]. injection E as <-. split; [apply extends_refl |].
      intros Hy. destruct (Hdep l _ Hobj Hy) as (l' & obj' & Hin & _).
      by apply not_elem_of_nil in Hin. }
  destruct Hbody as [[Hp Hq] Hx]. split; [by apply prefix_app_r |].
  intros Hpr. destruct (decide (name obj = y)) as [Hy|Hy].
  - rewrite Hy. apply preceded_snoc_same; [by apply Hx | by apply Hq].
  - apply preceded_snoc_other; [done | by apply Hq].
Qed.
End order_early.

Lemma dedupe_before tn x y :
  y ∈ tn -> preceded x y tn -> before x y (dedupe tn []).
Proof.
  intros Hy Hxy.
  apply list_elem_of_split_l in Hy as (u & v & -> & Hyu).
  assert (x ∈ u) as Hx.
  { specialize (Hxy (length u) (list_lookup_middle _ _ _ _ eq_refl)).
    by rewrite take_app_length in Hxy. }
  rewrite dedupe_app. simpl.
  assert (not_in y (dedupe u []) = true) as ->.
  { apply not_in_true. rewrite dedupe_elem, elem_of_nil. tauto. }
  destruct (dedupe_prefix v (dedupe u [] ++ [y])) as [k E].
  assert (x ∈ dedupe u []) as Hd by (apply dedupe_elem; by right).
  apply list_elem_of_split in Hd as (p & q & Hd).
  exists p, q, k. rewrite E, Hd. by rewrite <- !app_assoc.
Qed.

(** When the objects have distinct names, every name in a sequence returned
    by [dfs_protocol] comes after the names of the field types of the struct,
    of the element type of the array or of the variants of the enum that bears
    it. *)
Theorem dfs_protocol_dependencies_first protocol fuel out l obj l' obj' :
  unique_names (objects protocol) ->
  dfs_protocol fuel protocol = Ret out ->
  objects protocol !! l = Some obj -> Some l' ∈ early_refs obj ->
  objects protocol !! l' = Some obj' ->
  name obj ∈ out ->
  before (name obj') (name obj) out.
Proof.
  intros Hu E Hl Hin Hl' Hout. unfold dfs_protocol in E.
  apply obind_Ret_inv in E as (tn & E & [= <-]).
  apply dedupe_elem in Hout as [Hout|Hout]; [by apply not_elem_of_nil in Hout |].
  apply dedupe_before; [done |].
  assert (depends_early (objects protocol) (name obj') (name obj)) as Hdep.
  { intros l0 obj0 Hl0 Hn0.
    assert (l0 = l) as -> by (by apply (Hu l0 l obj0 obj)).
    rewrite Hl in Hl0. injection Hl0 as <-. by exists l', obj'. }
  apply (for_each_extends (name obj') (name obj)
           (fun pdu_name =>
              dfs_protocoltype (objects protocol) fuel (get_pdu protocol pdu_name))
           (get_pdu_names protocol)) in E.
  - apply E, preceded_nil.
  - intros z t t' _ Ez. by apply (dfs_order_early _ _ _ Hdep) in Ez as [Ez _].
Qed.

Lemma dfs_protocol_dependencies_first_witness :
  before "Leaf" "Right" ["Leaf"; "Left"; "Right"; "Top"].
Proof.
  apply (dfs_protocol_dependencies_first (single_pdu diamond_objs 0) 3
           ["Leaf"; "Left"; "Right"; "Top"] 2 (struct_of "Right" [3])
           3 (BitString "Leaf" (Some 8%Z))).
  - apply distinct_names_unique. by vm_compute.
  - by vm_compute.
  - done.
  - by left.
  - done.
  - set_solver.
Defined.

(** ** Contexts with fields *)

Lemma dfs_context_doomed objs fuel : forall l tn out,
  reaches_context_fields objs l ->
  dfs_protocoltype objs fuel (Some l) tn <> Ret out.
Proof.
  induction fuel as [|fuel IH]; intros l tn out (l' & n & f & fs & Hr & Hctx); [done |].
  rewrite dfs_protocoltype_unfold.
  apply rtc_inv in Hr as [->|(l1 & (pt & Hpt & Hin) & Hr)].
  { by rewrite Hctx. }
  assert (reaches_context_fields objs l1) as Hbad by (by exists l', n, f, fs).
  rewrite Hpt. intros E. apply obind_Ret_inv in E as (t & E & _).
  destruct pt as [m sz|m fields|m et len|m vs pf st|m ps rt|m cfs]; simpl in Hin.
  - by apply not_elem_of_nil in Hin.
  - apply list_elem_of_fmap in Hin as (fd & Hfd & Hin).
    destruct (for_each_Ret_inv _ _ _ _ E fd Hin) as (t1 & t2 & E1).
    rewrite <- Hfd in E1. by apply (IH l1 t1 t2).
  - apply list_elem_of_singleton in Hin as <-. by apply (IH l1 tn t).
  - unfold dfs_enum in E.
    apply obind_Ret_inv in E as (t1 & E1 & E).
    apply obind_Ret_inv in E as (t2 & E2 & E3).
    apply elem_of_app in Hin as [Hin|Hin].
    + destruct (for_each_Ret_inv _ _ _ _ E1 _ Hin) as (t3 & t4 & E4).
      by apply (IH l1 t3 t4).
    + apply elem_of_cons in Hin as [<-|Hin]; [by apply (IH l1 (t1 ++ [m]) t2) |].
      apply list_elem_of_singleton in Hin as <-. by apply (IH l1 t2 t).
  - by apply not_elem_of_nil in Hin.
  - by apply not_elem_of_nil in Hin.
Qed.

(** [dfs_protocol] returns no sequence for a protocol in which a PDU root
    reaches, through references of structs, arrays and enums, a context that
    has a field: the call in [dfs_context] lacks its second argument. *)
Theorem dfs_protocol_context_fields protocol fuel out l :
  Some l ∈ roots protocol -> reaches_context_fields (objects protocol) l ->
  dfs_protocol fuel protocol <> Ret out.
Proof.
  intros Hroot Hbad E. unfold dfs_protocol in E.
  apply obind_Ret_inv in E as (tn & E & _).
  unfold roots in Hroot. apply list_elem_of_fmap in Hroot as (pdu_name & Hpdu & Hin).
  destruct (for_each_Ret_inv _ _ _ _ E pdu_name Hin) as (t & t' & E1).
  rewrite <- Hpdu in E1. by apply (dfs_context_doomed _ _ _ _ _ Hbad) in E1.
Qed.

Lemma dfs_protocol_context_fields_witness :
  dfs_protocol 4 (single_pdu nested_ctx_objs 0) <> Ret ["Bits"; "Ctx"; "Outer"].
Proof.
  apply (dfs_protocol_context_fields (single_pdu nested_ctx_objs 0) 4
           ["Bits"; "Ctx"; "Outer"] 0).
  - by left.
  - exists 1, "Ctx", {| cfield_name := "x"; cfield_type := Some 2 |}, [].
    split; [|done]. apply rtc_once.
    exists (struct_of "Outer" [1]). split; [done | by left].
Defined.

Example dfs_nested_ctx :
  dfs_protocol 4 (single_pdu nested_ctx_objs 0) = Raise TypeError.
Proof. by vm_compute. Qed.

End ResolverMore.
